(** * google_places_lookup: the query-to-record resolution pipeline

    A shallow embedding of [src/google_places_lookup.py]:
    [GooglePlacesClient.find_best_match] (query normaliser, similarity scorer,
    candidate selection) and [GooglePlacesClient.lookup_business] (search,
    match, detail fetch, assembly, review parsing), together with the part of
    CPython's [difflib.SequenceMatcher] (Lib/difflib.py, 3.11) that
    [find_best_match] calls: [__chain_b], [find_longest_match],
    [get_matching_blocks] and [ratio].  Of the batch script around the
    client it covers [load_queries_from_file], the loop of [main] over the
    queries, and the review text that [write_reviews_output] and
    [write_markdown_output] put in the reports.

    Modelling conventions.
    - Values that come out of [response.json()] are Python objects; they are
      the inductive [pyval].  [None] is [PNone].  A Python [dict] with string
      keys is a [gmap string pyval].
    - A [str] is a [string]; its characters are the code points below 256.
      On that range [str.lower], [str.strip] and [str.split] are modelled
      exactly (letters A-Z and the Latin-1 capitals; the twelve white-space
      code points).
    - Python integers are [Z].
    - Python exceptions are explicit: a computation yields an [outcome],
      either [Returns v] or [Raises e].
    - The two HTTP operations are answers of a [gateway] that sees the log
      of all earlier calls; every call is appended to that log.
    - The score [2.0 * matches / length] is kept as the exact rational it
      denotes ([Q]); Python rounds it to the nearest double.  Rounding is
      monotone and maps 0, 4/5 and 1 to the literals [0.0], [0.8] and [1.0],
      so the order facts below carry over; two different rationals can only
      round to the same double when the compared strings together have more
      than 2^26 characters.
    - [logging] calls only format values that are already computed and are
      left out. *)

From Stdlib Require Import Ascii QArith Qminmax.
From Stdlib Require Import Floats.SpecFloat.
From stdpp Require Import base gmap list strings sorting lexico.

Set Warnings "-register-all".

(** ** [str] methods used by the client *)

Module Str.

(** [c.lower()] for one code point below 256. *)
Definition lower_char (c : ascii) : ascii :=
  let n := nat_of_ascii c in
  if ((65 <=? n) && (n <=? 90)) || ((192 <=? n) && (n <=? 222) && negb (n =? 215))
  then ascii_of_nat (n + 32)
  else c.

(** [s.lower()] *)
Fixpoint lower (s : string) : string :=
  match s with
  | "" => ""
  | String c s' => String (lower_char c) (lower s')
  end.

(** [c.isspace()] for one code point below 256. *)
Definition isspace (c : ascii) : bool :=
  let n := nat_of_ascii c in
  ((9 <=? n) && (n <=? 13)) || ((28 <=? n) && (n <=? 32)) || (n =? 133) || (n =? 160).

Fixpoint lstrip (s : string) : string :=
  match s with
  | "" => ""
  | String c s' => if isspace c then lstrip s' else s
  end.

Fixpoint rstrip (s : string) : string :=
  match s with
  | "" => ""
  | String c s' =>
      match rstrip s' with
      | "" => if isspace c then "" else String c ""
      | r => String c r
      end
  end.

(** [s.strip()] *)
Definition strip (s : string) : string := rstrip (lstrip s).

(** [sub in s] *)
Fixpoint contains (sub s : string) : bool :=
  String.prefix sub s ||
  match s with
  | "" => false
  | String _ s' => contains sub s'
  end.

(** [s.split(sep)] for a non-empty [sep]: the occurrences of [sep] are found
    from the left and do not overlap.  [skip] counts the characters of the
    current occurrence that are still to be passed over.  The head of the
    result is the piece being built. *)
Fixpoint split_from (sep : string) (skip : nat) (s : string) : list string :=
  match s with
  | "" => [""]
  | String c s' =>
      match skip with
      | S k => split_from sep k s'
      | O =>
          if String.prefix sep s
          then "" :: split_from sep (String.length sep - 1) s'
          else match split_from sep 0 s' with
               | p :: ps => String c p :: ps
               | [] => [String c ""]
               end
      end
  end.

Definition split (sep s : string) : list string := split_from sep 0 s.

(** [s.split()]: the maximal runs of non-space characters. *)
Fixpoint words (s : string) : list string :=
  match s with
  | "" => []
  | String c s' =>
      if isspace c then words s'
      else match s' with
           | "" => [String c ""]
           | String c' _ =>
               if isspace c' then String c "" :: words s'
               else match words s' with
                    | w :: ws => String c w :: ws
                    | [] => [String c ""]
                    end
           end
  end.

(** [sep.join(l)] *)
Fixpoint join (sep : string) (l : list string) : string :=
  match l with
  | [] => ""
  | [w] => w
  | w :: ws => w +:+ sep +:+ join sep ws
  end.

(** The characters of [s], each as a string of length one: what iterating
    over a [str] yields. *)
Fixpoint chars (s : string) : list string :=
  match s with
  | "" => []
  | String c s' => String c "" :: chars s'
  end.

End Str.

(** ** Python objects and the primitives the client applies to them *)

Module Py.

Inductive exn := AttributeError | TypeError | KeyError.

Inductive outcome (A : Type) :=
  | Returns (a : A)
  | Raises (e : exn).
Arguments Returns {A} a.
Arguments Raises {A} e.

#[global] Instance outcome_ret : MRet outcome := λ A, Returns.

#[global] Instance outcome_bind : MBind outcome := λ A B k m,
  match m with
  | Returns a => k a
  | Raises e => Raises e
  end.

Inductive pyval :=
  | PNone
  | PBool (b : bool)
  | PInt (z : Z)
  | PFloat (f : spec_float)
  | PStr (s : string)
  | PList (l : list pyval)
  | PDict (d : gmap string pyval).

(** [bool(v)], as used by [if v:] and [not v]. *)
Definition truthy (v : pyval) : bool :=
  match v with
  | PNone => false
  | PBool b => b
  | PInt z => negb (z =? 0)%Z
  | PFloat (S754_zero _) => false
  | PFloat _ => true
  | PStr s => negb (String.eqb s "")
  | PList l => match l with [] => false | _ => true end
  | PDict d => negb (bool_decide (d = ∅))
  end.

(** [v.get(k, dflt)]: only a [dict] has the method. *)
Definition get (v : pyval) (k : string) (dflt : pyval) : outcome pyval :=
  match v with
  | PDict d => Returns (default dflt (d !! k))
  | _ => Raises AttributeError
  end.

(** [item in v] for a [str] item.  In a list only the same [str] compares
    equal to it. *)
Definition contains_str (item : string) (v : pyval) : outcome bool :=
  match v with
  | PDict d => Returns (bool_decide (is_Some (d !! item)))
  | PList l =>
      Returns (existsb (λ x, match x with PStr s => String.eqb item s | _ => false end) l)
  | PStr s => Returns (Str.contains item s)
  | _ => Raises TypeError
  end.

(** [v[k]] for a [str] key. *)
Definition getitem_str (v : pyval) (k : string) : outcome pyval :=
  match v with
  | PDict d =>
      match d !! k with
      | Some x => Returns x
      | None => Raises KeyError
      end
  | _ => Raises TypeError
  end.

(** [len(v)] *)
Definition len (v : pyval) : outcome Z :=
  match v with
  | PStr s => Returns (Z.of_nat (String.length s))
  | PList l => Returns (Z.of_nat (length l))
  | PDict d => Returns (Z.of_nat (size d))
  | _ => Raises TypeError
  end.

(** The items a [for] loop over [v] visits.  A [dict] yields its keys; their
    order plays no role in the client. *)
Definition iter (v : pyval) : outcome (list pyval) :=
  match v with
  | PList l => Returns l
  | PDict d => Returns (PStr <$> (map_to_list d).*1)
  | PStr s => Returns (PStr <$> Str.chars s)
  | _ => Raises TypeError
  end.

(** [v.lower()]: only a [str] has the method. *)
Definition lower (v : pyval) : outcome string :=
  match v with
  | PStr s => Returns (Str.lower s)
  | _ => Raises AttributeError
  end.

End Py.

(** ** [difflib.SequenceMatcher(None, a, b).ratio()]

    The matcher is built with [isjunk = None] and [autojunk = True], as
    [find_best_match] does.  Positions and sizes are Python integers. *)

Module Difflib.

Local Open Scope Z_scope.

(** [Match = namedtuple('Match', 'a b size')] *)
Definition Match : Type := Z * Z * Z.

Definition size (x : Match) : Z := x.2.

(** Tuples compare lexicographically; [list.sort] orders the blocks by it. *)
Definition Match_le (x y : Match) : Prop :=
  (x.1.1 < y.1.1 ∨ (x.1.1 = y.1.1 ∧ (x.1.2 < y.1.2 ∨ (x.1.2 = y.1.2 ∧ x.2 ≤ y.2)))).

#[global] Instance Match_le_dec : RelDecision Match_le.
Proof. intros x y. unfold Match_le. apply _. Defined.

Section matcher.
Context {A : Type} `{Countable A}.

Record SequenceMatcher := {
  sm_a : list A;
  sm_b : list A;
  sm_b2j : gmap A (list Z);
  sm_bjunk : gset A
}.

(** [seq[i]] for an index inside the sequence; the matcher never indexes
    outside ([None] stands for that case). *)
Definition item (seq : list A) (i : Z) : option A :=
  if bool_decide (0 ≤ i) then seq !! Z.to_nat i else None.

(** [__chain_b]: for every element of [b] the increasing list of its
    positions; with 200 elements or more, the elements that occur more than
    [n // 100 + 1] times are dropped from the table. *)
Definition chain_b (b : list A) : gmap A (list Z) :=
  let b2j :=
    foldl (λ (b2j : gmap A (list Z)) '(i, elt),
             <[elt := default [] (b2j !! elt) ++ [Z.of_nat i]]> b2j)
          ∅ (imap pair b) in
  let n := Z.of_nat (length b) in
  if bool_decide (n >= 200) then
    let ntest := n `div` 100 + 1 in
    filter (λ kv, ¬ (Z.of_nat (length kv.2) > ntest)) b2j
  else b2j.

(** [SequenceMatcher(None, a, b)] *)
Definition new (a b : list A) : SequenceMatcher :=
  {| sm_a := a; sm_b := b; sm_b2j := chain_b b; sm_bjunk := ∅ |}.

Section find_longest_match.
Variable m : SequenceMatcher.
Variables alo ahi blo bhi : Z.

(** The inner [for j in b2j.get(a[i], nothing)] with its [continue] and
    [break]. *)
Fixpoint scan_row (i : Z) (j2len : gmap Z Z) (js : list Z)
    (newj2len : gmap Z Z) (best : Match) : gmap Z Z * Match :=
  match js with
  | [] => (newj2len, best)
  | j :: js' =>
      if bool_decide (j < blo) then scan_row i j2len js' newj2len best
      else if bool_decide (j >= bhi) then (newj2len, best)
      else
        let k := default 0 (j2len !! (j - 1)) + 1 in
        scan_row i j2len js' (<[j := k]> newj2len)
          (if bool_decide (k > size best) then (i - k + 1, j - k + 1, k) else best)
  end.

(** The outer [for i in range(alo, ahi)]. *)
Definition scan_rows (best : Match) : gmap Z Z * Match :=
  foldl (λ '(j2len, best) i,
           scan_row i j2len
             (from_option (λ x, default [] (sm_b2j m !! x)) [] (item (sm_a m) i))
             ∅ best)
        (∅, best) (seqZ alo (ahi - alo)).

(** [while besti > alo and bestj > blo and isbjunk(b[bestj-1]) == junk and
    a[besti-1] == b[bestj-1]].  Every round lowers [besti], so
    [besti - alo] rounds are all the loop can make. *)
Fixpoint grow_left (junk : bool) (rounds : nat) (best : Match) : Match :=
  match rounds with
  | O => best
  | S r =>
      let '(besti, bestj, bestsize) := best in
      if bool_decide (besti > alo) && bool_decide (bestj > blo) &&
         match item (sm_b m) (bestj - 1) with
         | Some y =>
             bool_decide (bool_decide (y ∈ sm_bjunk m) = junk) &&
             bool_decide (item (sm_a m) (besti - 1) = Some y)
         | None => false
         end
      then grow_left junk r (besti - 1, bestj - 1, bestsize + 1)
      else best
  end.

(** [while besti+bestsize < ahi and bestj+bestsize < bhi and
    isbjunk(b[bestj+bestsize]) == junk and
    a[besti+bestsize] == b[bestj+bestsize]].  Every round raises
    [besti + bestsize], so [ahi - (besti + bestsize)] rounds are all the
    loop can make. *)
Fixpoint grow_right (junk : bool) (rounds : nat) (best : Match) : Match :=
  match rounds with
  | O => best
  | S r =>
      let '(besti, bestj, bestsize) := best in
      if bool_decide (besti + bestsize < ahi) && bool_decide (bestj + bestsize < bhi) &&
         match item (sm_b m) (bestj + bestsize) with
         | Some y =>
             bool_decide (bool_decide (y ∈ sm_bjunk m) = junk) &&
             bool_decide (item (sm_a m) (besti + bestsize) = Some y)
         | None => false
         end
      then grow_right junk r (besti, bestj, bestsize + 1)
      else best
  end.

Definition left_rounds (best : Match) : nat := Z.to_nat (best.1.1 - alo).
Definition right_rounds (best : Match) : nat := Z.to_nat (ahi - (best.1.1 + size best)).

Definition find_longest_match : Match :=
  let best := (scan_rows (alo, blo, 0)).2 in
  let best := grow_left false (left_rounds best) best in
  let best := grow_right false (right_rounds best) best in
  let best := grow_left true (left_rounds best) best in
  let best := grow_right true (right_rounds best) best in
  best.

End find_longest_match.

(** The [while queue:] loop of [get_matching_blocks].  The head of [queue]
    is the entry [queue.pop()] takes.  [None]: [rounds] iterations did not
    empty the queue. *)
Fixpoint match_regions (m : SequenceMatcher) (rounds : nat)
    (queue : list (Z * Z * Z * Z)) (matching_blocks : list Match) : option (list Match) :=
  match queue with
  | [] => Some matching_blocks
  | (alo, ahi, blo, bhi) :: queue =>
      match rounds with
      | O => None
      | S r =>
          let x := find_longest_match m alo ahi blo bhi in
          let '(i, j, k) := x in
          if bool_decide (k ≠ 0) then
            let queue := if bool_decide (alo < i ∧ blo < j)
                         then (alo, i, blo, j) :: queue else queue in
            let queue := if bool_decide (i + k < ahi ∧ j + k < bhi)
                         then (i + k, ahi, j + k, bhi) :: queue else queue in
            match_regions m r queue (matching_blocks ++ [x])
          else match_regions m r queue matching_blocks
      end
  end.

(** The loop that merges adjacent blocks; [cur] is [(i1, j1, k1)]. *)
Fixpoint collapse (blocks : list Match) (cur : Match) (non_adjacent : list Match)
    : list Match * Match :=
  match blocks with
  | [] => (non_adjacent, cur)
  | (i2, j2, k2) :: blocks =>
      let '(i1, j1, k1) := cur in
      if bool_decide (i1 + k1 = i2 ∧ j1 + k1 = j2)
      then collapse blocks (i1, j1, k1 + k2) non_adjacent
      else collapse blocks (i2, j2, k2)
             (if bool_decide (k1 ≠ 0) then non_adjacent ++ [(i1, j1, k1)] else non_adjacent)
  end.

Definition finish_blocks (la lb : Z) (matching_blocks : list Match) : list Match :=
  let '(non_adjacent, (i1, j1, k1)) :=
    collapse (merge_sort Match_le matching_blocks) (0, 0, 0) [] in
  let non_adjacent :=
    if bool_decide (k1 ≠ 0) then non_adjacent ++ [(i1, j1, k1)] else non_adjacent in
  non_adjacent ++ [(la, lb, 0)].

(** Iterations that always empty the queue (see [match_regions_terminates]). *)
Definition queue_rounds (m : SequenceMatcher) : nat := (2 * length (sm_a m) + 1)%nat.

Definition get_matching_blocks_within (rounds : nat) (m : SequenceMatcher)
    : option (list Match) :=
  let la := Z.of_nat (length (sm_a m)) in
  let lb := Z.of_nat (length (sm_b m)) in
  finish_blocks la lb <$> match_regions m rounds [(0, la, 0, lb)] [].

Definition get_matching_blocks (m : SequenceMatcher) : list Match :=
  default [] (get_matching_blocks_within (queue_rounds m) m).

(** [_calculate_ratio] *)
Definition calculate_ratio (matches length : Z) : Q :=
  if bool_decide (length ≠ 0) then (2 * inject_Z matches / inject_Z length)%Q
  else 1%Q.

Definition sum_sizes (blocks : list Match) : Z := foldr (λ x acc, size x + acc) 0 blocks.

Definition ratio (m : SequenceMatcher) : Q :=
  let matches := sum_sizes (get_matching_blocks m) in
  calculate_ratio matches (Z.of_nat (length (sm_a m)) + Z.of_nat (length (sm_b m))).

End matcher.

Arguments SequenceMatcher A {_ _}.

(** [SequenceMatcher(None, a, b).ratio()] on two [str] *)
Definition str_ratio (a b : string) : Q :=
  ratio (new (String.list_ascii_of_string a) (String.list_ascii_of_string b)).

End Difflib.

(** ** The client: [GooglePlacesClient] *)

Import Py.

Module BusinessInfo.
Record t := mk {
  query : string;
  place_id : pyval;
  name : pyval;
  rating : pyval;
  user_ratings_total : pyval;
  maps_url : pyval;
  formatted_address : pyval;
  match_score : option Q;
  error : option string
}.
End BusinessInfo.

Module Review.
Record t := mk {
  author : pyval;
  rating : pyval;
  relative_time : pyval;
  text : pyval;
  publish_time : pyval
}.
End Review.

(** *** The Places gateway

    [search_text] and [get_place_details] post a request and return the
    decoded body, or [None] when [requests] raised.  What the provider
    answers is the [gateway]: [None] is a request that raised.  It may depend
    on the calls made so far. *)

Inductive call :=
  | SearchText (query : string) (page_size : Z)
  | GetPlaceDetails (place_id : pyval) (include_reviews : bool).

Definition gateway : Type := list call → call → option pyval.

(** A computation that talks to the gateway: from the log of earlier calls
    to an outcome and the extended log. *)
Definition io (A : Type) : Type := list call → outcome A * list call.

#[global] Instance io_ret : MRet io := λ A a log, (Returns a, log).

#[global] Instance io_bind : MBind io := λ A B k m log,
  match m log with
  | (Returns a, log') => k a log'
  | (Raises e, log') => (Raises e, log')
  end.

Definition lift {A} (o : outcome A) : io A := λ log, (o, log).

Definition request (gw : gateway) (c : call) : io pyval := λ log,
  (Returns (default PNone (gw log c)), log ++ [c]).

Definition search_text (gw : gateway) (query : string) (page_size : Z) : io pyval :=
  request gw (SearchText query page_size).

Definition get_place_details (gw : gateway) (place_id : pyval) (include_reviews : bool)
    : io pyval :=
  request gw (GetPlaceDetails place_id include_reviews).

(** *** [find_best_match] *)

(** Lines 156-165: the business name taken from the query. *)
Definition extract_business_name (query : string) : string :=
  let query_lower := Str.lower query in
  match List.find (λ separator, Str.contains separator query_lower) [" in "; ", "] with
  | Some separator => Str.strip (default "" (head (Str.split separator query_lower)))
  | None =>
      let location_words := ["city"; "ut"; "utah"; "slc"; "salt lake city"] in
      let words := Str.words query_lower in
      Str.strip (Str.join " " (filter (λ w, w ∉ location_words) words))
  end.

(** [max(x, y)]: the first of the largest arguments. *)
Definition max (x y : Q) : Q := if Qlt_le_dec x y then y else x.

(** Lines 176-180: the score of one candidate name. *)
Definition similarity_of (business_name place_name : string) : Q :=
  let similarity := Difflib.str_ratio business_name place_name in
  if Str.contains business_name place_name then max similarity 0.8 else similarity.

(** [place.get("displayName", {}).get("text", dflt)] *)
Definition display_text (place : pyval) (dflt : pyval) : outcome pyval :=
  displayName ← get place "displayName" (PDict ∅);
  get displayName "text" dflt.

(** Line 173 *)
Definition place_name_of (place : pyval) : outcome string :=
  display_text place (PStr "") ≫= lower.

(** Lines 172-186: the loop over the candidates. *)
Fixpoint best_of (business_name : string) (search_results : list pyval)
    (best_match : pyval) (best_score : Q) : outcome (pyval * Q) :=
  match search_results with
  | [] => Returns (best_match, best_score)
  | place :: rest =>
      place_name ← place_name_of place;
      let similarity := similarity_of business_name place_name in
      if Qlt_le_dec best_score similarity
      then best_of business_name rest place similarity
      else best_of business_name rest best_match best_score
  end.

Definition find_best_match (query : string) (search_results : pyval)
    : outcome (pyval * Q) :=
  if negb (truthy search_results) then Returns (PNone, 0%Q)
  else
    let business_name := extract_business_name query in
    places ← iter search_results;
    '(best_match, best_score) ← best_of business_name places PNone 0%Q;
    _ ← (if truthy best_match then display_text best_match (PStr "") else Returns PNone);
    Returns (best_match, best_score).

(** *** [lookup_business] *)

(** Lines 328-347: the body of the [try] for one review. *)
Definition parse_review (review_data : pyval) : outcome Review.t :=
  authorAttribution ← get review_data "authorAttribution" (PDict ∅);
  author_name ← get authorAttribution "displayName" (PStr "Anonymous");
  rating ← get review_data "rating" (PInt 0);
  relative_time ← get review_data "relativePublishTimeDescription" (PStr "");
  has_original ← contains_str "originalText" review_data;
  text ←
    (if has_original : bool then
       getitem_str review_data "originalText" ≫= λ o, get o "text" (PStr "")
     else
       has_text ← contains_str "text" review_data;
       if has_text : bool then
         getitem_str review_data "text" ≫= λ o, get o "text" (PStr "")
       else Returns (PStr ""));
  publish_time ← get review_data "publishTime" (PStr "");
  Returns (Review.mk author_name rating relative_time text publish_time).

(** Lines 326-350: a review whose parsing raises is skipped. *)
Fixpoint parse_reviews (raw : list pyval) : list Review.t :=
  match raw with
  | [] => []
  | review_data :: rest =>
      match parse_review review_data with
      | Returns r => r :: parse_reviews rest
      | Raises _ => parse_reviews rest
      end
  end.

(** The record of a failed resolution (lines 260-268, 278-286). *)
Definition failure (query : string) (error : string) : BusinessInfo.t :=
  BusinessInfo.mk query (PStr "") (PStr "") PNone PNone (PStr "") PNone None (Some error).

Definition lookup_business (gw : gateway) (query : string) (include_reviews : bool)
    : io (BusinessInfo.t * list Review.t) :=
  search_response ← search_text gw query 5;
  no_results ← lift (
    if negb (truthy search_response) then Returns true
    else
      has_places ← contains_str "places" search_response;
      if negb has_places then Returns true
      else
        places ← getitem_str search_response "places";
        n ← len places;
        Returns (n =? 0)%Z);
  if no_results : bool then lift (Returns (failure query "No match found", []))
  else
    all_places ← lift (getitem_str search_response "places");
    '(best_match, similarity_score) ← lift (find_best_match query all_places);
    if negb (truthy best_match) then lift (Returns (failure query "No good match found", []))
    else
      place_id ← lift (get best_match "id" (PStr ""));
      name ← lift (display_text best_match (PStr "Unknown"));
      formatted_address ← lift (get best_match "formattedAddress" (PStr ""));
      details_response ← get_place_details gw place_id include_reviews;
      if negb (truthy details_response) then
        lift (Returns (BusinessInfo.mk query place_id name PNone PNone (PStr "")
                         formatted_address None (Some "Could not retrieve details"), []))
      else
        name' ← lift (display_text details_response name);
        rating ← lift (get details_response "rating" PNone);
        user_ratings_total ← lift (get details_response "userRatingCount" PNone);
        maps_url ← lift (get details_response "googleMapsUri" (PStr ""));
        formatted_address' ←
          lift (get details_response "formattedAddress" formatted_address);
        let business_info :=
          BusinessInfo.mk query place_id name' rating user_ratings_total maps_url
            formatted_address' (Some similarity_score) None in
        has_reviews ←
          lift (if include_reviews then contains_str "reviews" details_response
                else Returns false);
        reviews ←
          lift (if has_reviews : bool then
                  raw ← getitem_str details_response "reviews";
                  review_list ← iter raw;
                  Returns (parse_reviews review_list)
                else Returns []);
        lift (Returns (business_info, reviews)).

(** ** The batch script: the query file and the review text of the reports *)

Module Text.

(** [s[:n]] *)
Fixpoint take (n : nat) (s : string) : string :=
  match n, s with
  | S k, String c s' => String c (take k s')
  | _, _ => ""
  end.

(** [s.replace(old, new)] for a non-empty [old]: the occurrences of [old]
    are found from the left and do not overlap.  [skip] counts the characters
    of the current occurrence that are still to be passed over. *)
Fixpoint replace_from (old new : string) (skip : nat) (s : string) : string :=
  match s with
  | "" => ""
  | String c s' =>
      match skip with
      | S k => replace_from old new k s'
      | O =>
          if String.prefix old s
          then new +:+ replace_from old new (String.length old - 1) s'
          else String c (replace_from old new 0 s')
      end
  end.

Definition replace (old new s : string) : string := replace_from old new 0 s.

End Text.


(** Lines 433 and 534: [text[:500] + "..." if len(text) > 500 else text]. *)
Definition review_excerpt (text : string) : string :=
  if 500 <? String.length text then Text.take 500 text +:+ "..." else text.

(** Lines 534-536: the excerpt with every ["|"] replaced by ["\|"]. *)
Definition review_quote (text : string) : string :=
  Text.replace "|" "\|" (review_excerpt text).

(** *** The loop of [main] over the queries *)

(** [all_reviews[key] = ...]: a [list] or a [dict] cannot be a key. *)
Definition hashable (v : pyval) : bool :=
  match v with
  | PList _ | PDict _ => false
  | _ => true
  end.

(** The loop of [main] over the queries, lines 659-678.  [businesses] is the
    list it builds; [all_reviews] is kept as the sequence of the assignments
    [all_reviews[business_info.name] = reviews], oldest first.  The pause
    between two queries is left out. *)
Fixpoint process_queries (gw : gateway) (include_reviews : bool) (queries : list string)
    (businesses : list BusinessInfo.t) (all_reviews : list (pyval * list Review.t))
    : io (list BusinessInfo.t * list (pyval * list Review.t)) :=
  match queries with
  | [] => lift (Returns (businesses, all_reviews))
  | query :: queries =>
      '(business_info, reviews) ← lookup_business gw query include_reviews;
      let businesses := businesses ++ [business_info] in
      all_reviews ← lift (
        match reviews with
        | [] => Returns all_reviews
        | _ =>
            if hashable (BusinessInfo.name business_info)
            then Returns (all_reviews ++ [(BusinessInfo.name business_info, reviews)])
            else Raises TypeError
        end);
      process_queries gw include_reviews queries businesses all_reviews
  end.

(** ** Vocabulary of the statements *)

(** *** Strings *)

(** [sub] occurs in [s]. *)
Definition occurs (sub s : string) : Prop := ∃ l r, s = l +:+ sub +:+ r.

(** [pre] is the part of [s] before the first occurrence of [sep]. *)
Definition first_occurrence (sep s pre : string) : Prop :=
  (∃ post, s = pre +:+ sep +:+ post) ∧
  ∀ pre' post', s = pre' +:+ sep +:+ post' → String.length pre ≤ String.length pre'.

(** *** Invariants of the matcher's loops *)

Module DifflibInv.
Import Difflib.
Local Open Scope Z_scope.

(** What the scan of the region knows about the candidate block [best] once
    the rows below [i] have been read. *)
Definition best_below (alo blo bhi i : Z) (best : Match) : Prop :=
  alo ≤ best.1.1 ∧ blo ≤ best.1.2 ∧ 0 ≤ size best ∧
  best.1.1 + size best ≤ i ∧ best.1.2 + size best ≤ bhi.

(** What it knows about the table of the runs that end in row [i]. *)
Definition runs_in_row (alo blo bhi i : Z) (j2len : gmap Z Z) : Prop :=
  ∀ j k, j2len !! j = Some k → 1 ≤ k ∧ k ≤ i - alo + 1 ∧ blo ≤ j - k + 1 ∧ j < bhi.

(** The block lies inside the region. *)
Definition inside (alo ahi blo bhi : Z) (best : Match) : Prop :=
  alo ≤ best.1.1 ∧ blo ≤ best.1.2 ∧ 0 ≤ size best ∧
  best.1.1 + size best ≤ ahi ∧ best.1.2 + size best ≤ bhi.

Definition region_ok (r : Z * Z * Z * Z) : Prop :=
  let '(alo, ahi, blo, bhi) := r in alo ≤ ahi ∧ blo ≤ bhi.

(** Elements of [a] (of [b]) that the regions still in the queue cover. *)
Definition span_a (queue : list (Z * Z * Z * Z)) : Z :=
  foldr (λ '(alo, ahi, _, _) acc, (ahi - alo) + acc) 0 queue.

Definition span_b (queue : list (Z * Z * Z * Z)) : Z :=
  foldr (λ '(_, _, blo, bhi) acc, (bhi - blo) + acc) 0 queue.

(** Iterations the queue can still cause: a region of [n] elements of [a] is
    popped once and leaves regions of fewer than [n] elements altogether. *)
Definition work (queue : list (Z * Z * Z * Z)) : nat :=
  foldr (λ '(alo, ahi, _, _) acc, 2 * Z.to_nat (ahi - alo) + 1 + acc)%nat 0%nat queue.

Definition sizes_ok (blocks : list Match) : Prop := Forall (λ x, 0 ≤ size x) blocks.

End DifflibInv.

(** *** The match step *)

(** Every candidate has a readable display name; [names] lists them. *)
Definition named (cands : list pyval) (names : list string) : Prop :=
  Forall2 (λ c n, place_name_of c = Returns n) cands names.

(** Some candidate scores above zero against the business name [bn]. *)
Definition some_positive (bn : string) (names : list string) : Prop :=
  Exists (λ n, (0 < similarity_of bn n)%Q) names.

(** [(best, score)] is the candidate at position [i]; it scores more than
    every earlier candidate and at least as much as every candidate. *)
Definition first_maximum (bn : string) (cands : list pyval) (names : list string)
    (i : nat) (best : pyval) (score : Q) : Prop :=
  ∃ n, cands !! i = Some best ∧ names !! i = Some n ∧ score = similarity_of bn n ∧
    (∀ j n', j < i → names !! j = Some n' → (similarity_of bn n' < score)%Q) ∧
    (∀ j n', names !! j = Some n' → (similarity_of bn n' <= score)%Q).

(** *** The gateway *)

(** The search step found nothing: the request raised, or the body has no
    ["places"], or an empty list of them. *)
Definition no_candidates (response : option pyval) : Prop :=
  response = None ∨
  ∃ d, response = Some (PDict d) ∧
       (d !! "places" = None ∨ d !! "places" = Some (PList [])).

(** The provider answers a request the same way whatever was asked before. *)
Definition stable (gw : gateway) : Prop := ∀ log log' c, gw log c = gw log' c.

(** The outcome of [m] does not depend on the log it starts from. *)
Definition log_independent {A} (m : io A) : Prop :=
  ∀ log log', (m log).1 = (m log').1.

(** *** Reviews *)

Definition object_or_absent (v : option pyval) : Prop :=
  match v with
  | None | Some (PDict _) => True
  | _ => False
  end.

(** The payloads [parse_review] reads without raising: an object whose
    ["authorAttribution"] is an object or absent and whose text container
    (["originalText"], or ["text"] when that is absent) is an object or
    absent. *)
Definition review_shape (raw : pyval) : Prop :=
  match raw with
  | PDict d =>
      object_or_absent (d !! "authorAttribution") ∧
      match d !! "originalText" with
      | Some o => object_or_absent (Some o)
      | None => object_or_absent (d !! "text")
      end
  | _ => False
  end.

(** [o[k]] when [o] is an object that has [k], [dflt] otherwise. *)
Definition field (o : option pyval) (k : string) (dflt : pyval) : pyval :=
  match o with
  | Some (PDict d) => default dflt (d !! k)
  | _ => dflt
  end.

(** The record a payload [d] of that shape is normalised to. *)
Definition normalized (d : gmap string pyval) : Review.t :=
  {| Review.author := field (d !! "authorAttribution") "displayName" (PStr "Anonymous");
     Review.rating := default (PInt 0) (d !! "rating");
     Review.relative_time := default (PStr "") (d !! "relativePublishTimeDescription");
     Review.text :=
       match d !! "originalText" with
       | Some o => field (Some o) "text" (PStr "")
       | None => field (d !! "text") "text" (PStr "")
       end;
     Review.publish_time := default (PStr "") (d !! "publishTime") |}.

(** *** Sample provider data *)

(** A search result [{"id": id, "displayName": {"text": name}}]. *)
Definition candidate (id name : string) : pyval :=
  PDict {[ "id" := PStr id; "displayName" := PDict {[ "text" := PStr name ]} ]}.

(** The same with a ["formattedAddress"]. *)
Definition candidate_at (id name address : string) : pyval :=
  PDict {[ "id" := PStr id;
           "displayName" := PDict {[ "text" := PStr name ]};
           "formattedAddress" := PStr address ]}.

Definition search_body (cands : list pyval) : gmap string pyval :=
  {[ "places" := PList cands ]}.

(** A provider whose search answers [cands] and whose detail requests all
    raise. *)
Definition details_down (cands : list pyval) : gateway := λ _ c,
  match c with
  | SearchText _ _ => Some (PDict (search_body cands))
  | GetPlaceDetails _ _ => None
  end.

(** A provider with fixed answers. *)
Definition snapshot (cands : list pyval) (details : pyval) : gateway := λ _ c,
  match c with
  | SearchText _ _ => Some (PDict (search_body cands))
  | GetPlaceDetails _ _ => Some details
  end.

(** A provider that answers the first request only. *)
Definition one_shot (cands : list pyval) : gateway := λ log c,
  match log, c with
  | [], SearchText _ _ => Some (PDict (search_body cands))
  | _, _ => None
  end.

(** *** Text *)

(** The characters of a string. *)
Definition chars_of (s : string) : list ascii := String.list_ascii_of_string s.

(** Every character of [s] satisfies [P]. *)
Definition all_chars (P : ascii → Prop) (s : string) : Prop := Forall P (chars_of s).

(** No character of [a] occurs in [b]. *)
Definition share_no_char (a b : string) : Prop := ∀ c, c ∈ chars_of a → c ∉ chars_of b.

(** Neither white space at either end. *)
Definition trimmed (s : string) : Prop := Str.lstrip s = s ∧ Str.rstrip s = s.

(** White space only. *)
Definition blank (s : string) : Prop := all_chars (λ c, Str.isspace c = true) s.

(** [t] is [s] without the white space at its two ends: [s] is [t] between
    two blank strings, and [t] neither begins nor ends with a white-space
    character. *)
Definition stripped_of (s t : string) : Prop :=
  (∃ l r, s = l +:+ t +:+ r ∧ blank l ∧ blank r) ∧
  (∀ c t', t = String c t' → Str.isspace c = false) ∧
  (∀ t' c, t = t' +:+ String c "" → Str.isspace c = false).


(** A run of characters that are not white space, at least one. *)
Definition word (w : string) : Prop := w ≠ "" ∧ all_chars (λ c, Str.isspace c = false) w.

(** *** Shapes of the provider's answers *)

(** The search results [find_best_match] can read: an object whose
    ["displayName"] is absent or an object whose ["text"] is absent or a
    [str]. *)
Definition candidate_shape (c : pyval) : Prop :=
  match c with
  | PDict d =>
      match d !! "displayName" with
      | None => True
      | Some (PDict dn) =>
          match dn !! "text" with
          | None | Some (PStr _) => True
          | _ => False
          end
      | _ => False
      end
  | _ => False
  end.

(** A JSON object. *)
Definition is_object (v : pyval) : Prop :=
  match v with
  | PDict _ => True
  | _ => False
  end.

(** [None], a [bool] or a number: the values a [for] loop cannot visit. *)
Definition scalar (v : pyval) : Prop :=
  match v with
  | PNone | PBool _ | PInt _ | PFloat _ => True
  | _ => False
  end.

(** The shapes of the review payloads can be tested. *)
#[global] Instance object_or_absent_dec v : Decision (object_or_absent v).
Proof. destruct v as [[]|]; simpl; apply _. Defined.

#[global] Instance review_shape_dec raw : Decision (review_shape raw).
Proof.
  destruct raw; simpl; try apply _.
  destruct (d !! "originalText") as [[]|]; apply _.
Defined.

(** A search answer that [lookup_business] can work with: the request
    failed, or the body is an object whose ["places"] is absent or a list of
    readable search results. *)
Definition search_shape (response : option pyval) : Prop :=
  match response with
  | None => True
  | Some (PDict d) =>
      match d !! "places" with
      | None => True
      | Some (PList cands) => Forall candidate_shape cands
      | _ => False
      end
  | _ => False
  end.

(** A detail answer that [lookup_business] can work with: the request
    failed, or the body is an object whose ["displayName"] is an object or
    absent and, when reviews are asked for, whose ["reviews"] is a list or
    absent. *)
Definition details_shape (include_reviews : bool) (response : option pyval) : Prop :=
  match response with
  | None => True
  | Some (PDict d) =>
      object_or_absent (d !! "displayName") ∧
      (include_reviews = true →
       match d !! "reviews" with
       | None | Some (PList _) => True
       | _ => False
       end)
  | _ => False
  end.

(** *** The batch *)

(** The assignment stores reviews that were found, under a key that can be
    one. *)
Definition stored (entry : pyval * list Review.t) : Prop :=
  hashable entry.1 = true ∧ entry.2 ≠ [].

(** * Facts *)

(** ** Strings *)

Module StrFacts.

Lemma append_cons c (s1 s2 : string) : String c s1 +:+ s2 = String c (s1 +:+ s2).
Proof. reflexivity. Qed.

Lemma append_empty (s : string) : "" +:+ s = s.
Proof. reflexivity. Qed.

Lemma prefix_spec (sep s : string) :
  String.prefix sep s = true ↔ ∃ post, s = sep +:+ post.
Proof.
  revert s. induction sep as [|a sep IH]; intros s; simpl.
  - destruct s; split; eauto.
  - destruct s as [|b s]; simpl.
    + split; [done|]. by intros [post Hp].
    + destruct (Ascii.ascii_dec a b) as [->|Hab].
      * rewrite IH. split; intros [post Hp]; exists post.
        -- by rewrite append_cons, Hp.
        -- rewrite append_cons in Hp. by injection Hp.
      * split; [done|]. intros [post Hp]. rewrite append_cons in Hp. by injection Hp.
Qed.

Lemma contains_nil (sub : string) : Str.contains sub "" = String.prefix sub "" || false.
Proof. reflexivity. Qed.

Lemma contains_cons (sub : string) c (s : string) :
  Str.contains sub (String c s) = String.prefix sub (String c s) || Str.contains sub s.
Proof. reflexivity. Qed.

Lemma contains_prefix (sub s : string) :
  String.prefix sub s = true → Str.contains sub s = true.
Proof. intros Hp. destruct s; [rewrite contains_nil|rewrite contains_cons]; by rewrite Hp. Qed.

Lemma contains_empty (s : string) : Str.contains "" s = true.
Proof. by destruct s. Qed.

(** [sub in s] decides whether [sub] occurs in [s]. *)
Lemma contains_spec (sub s : string) : Str.contains sub s = true ↔ occurs sub s.
Proof.
  split.
  - induction s as [|c s IH].
    + rewrite contains_nil, orb_false_r. intros Hp.
      apply prefix_spec in Hp as [post Hp]. by exists "", post.
    + rewrite contains_cons, orb_true_iff. intros [Hp|Hc].
      * apply prefix_spec in Hp as [post Hp]. by exists "", post.
      * destruct (IH Hc) as (l & r & ->). by exists (String c l), r.
  - intros (l & r & ->). induction l as [|c l IH].
    + rewrite append_empty. apply contains_prefix, prefix_spec. by exists r.
    + rewrite append_cons, contains_cons, IH. apply orb_true_r.
Qed.

(** [s.split(sep)[0]] is the part of [s] before the first [sep]. *)
Lemma split_first_occurrence (sep s : string) :
  sep ≠ "" →
  Str.contains sep s = true →
  ∃ pre rest, Str.split sep s = pre :: rest ∧ first_occurrence sep s pre.
Proof.
  intros Hsep. unfold Str.split. induction s as [|c s IH]; intros Hc.
  - rewrite contains_nil, orb_false_r in Hc. apply prefix_spec in Hc as [post Hp].
    destruct sep; done.
  - rewrite contains_cons in Hc.
    change (Str.split_from sep 0 (String c s)) with
      (if String.prefix sep (String c s)
       then "" :: Str.split_from sep (String.length sep - 1) s
       else match Str.split_from sep 0 s with
            | p :: ps => String c p :: ps
            | [] => [String c ""]
            end).
    destruct (String.prefix sep (String c s)) eqn:Hp.
    + exists "", (Str.split_from sep (String.length sep - 1) s). split; [done|].
      apply prefix_spec in Hp as [post Hp]. split; [by exists post|].
      intros pre' post' _. simpl. lia.
    + simpl in Hc. destruct (IH Hc) as (pre & rest & Hsplit & (post & Hpost) & Hmin).
      rewrite Hsplit. exists (String c pre), rest. split; [done|]. split.
      * exists post. by rewrite append_cons, <- Hpost.
      * intros pre' post' Heq. destruct pre' as [|c' pre'].
        -- rewrite append_empty in Heq.
           assert (String.prefix sep (String c s) = true) as Hp'
             by (apply prefix_spec; by exists post').
           congruence.
        -- rewrite append_cons in Heq. injection Heq as -> Heq.
           simpl. specialize (Hmin pre' post' Heq). lia.
Qed.

End StrFacts.

(** ** The matcher *)

Module DifflibFacts.
Import Difflib DifflibInv.
Local Open Scope Z_scope.

Lemma foldl_seqZ_inv {S : Type} (P : Z → S → Prop) (f : S → Z → S) lo n s0 :
  0 ≤ n →
  P lo s0 →
  (∀ i s, lo ≤ i < lo + n → P i s → P (i + 1) (f s i)) →
  P (lo + n) (foldl f s0 (seqZ lo n)).
Proof.
  intros Hn. revert lo s0.
  induction (Z.to_nat n) as [|k IH] eqn:Hk using nat_ind in n, Hn |- *; intros lo s0 H0 Hstep.
  - assert (n = 0) as -> by lia. rewrite Z.add_0_r. done.
  - rewrite seqZ_cons by lia. simpl.
    replace (lo + n) with (Z.succ lo + Z.pred n) by lia.
    apply (IH (Z.pred n)); [lia|lia| |].
    + replace (Z.succ lo) with (lo + 1) by lia. apply Hstep; [lia|done].
    + intros i s Hi. apply Hstep. lia.
Qed.

Section find_longest_match.
Context {A : Type} `{Countable A}.
Variable m : SequenceMatcher A.
Variables alo ahi blo bhi : Z.

Lemma scan_row_inv i j2len js newj2len best :
  runs_in_row alo blo bhi (i - 1) j2len →
  runs_in_row alo blo bhi i newj2len →
  best_below alo blo bhi (i + 1) best →
  alo ≤ i →
  let r := scan_row blo bhi i j2len js newj2len best in
  runs_in_row alo blo bhi i r.1 ∧ best_below alo blo bhi (i + 1) r.2.
Proof.
  intros Hprev. revert newj2len best.
  induction js as [|j js IH]; intros newj2len best Hnew Hbest Hi; simpl; [done|].
  case_bool_decide; [by apply IH|].
  case_bool_decide; [done|].
  apply IH; [| |done].
  - intros j' k'. rewrite lookup_insert. case_decide as Hj.
    + intros [= <-]. subst j'.
      destruct (j2len !! (j - 1)) as [k0|] eqn:Hk0; simpl.
      * apply Hprev in Hk0. lia.
      * lia.
    + apply Hnew.
  - case_bool_decide; [|done].
    destruct (j2len !! (j - 1)) as [k0|] eqn:Hk0; simpl.
    + apply Hprev in Hk0. unfold best_below, size in *; simpl. lia.
    + unfold best_below, size in *; simpl. lia.
Qed.

Lemma scan_rows_inv best :
  alo ≤ ahi →
  best_below alo blo bhi alo best →
  best_below alo blo bhi ahi (scan_rows m alo ahi blo bhi best).2.
Proof.
  intros Hle Hbest. unfold scan_rows.
  pose (P := λ (i : Z) (s : gmap Z Z * Match),
          runs_in_row alo blo bhi (i - 1) s.1 ∧ best_below alo blo bhi i s.2).
  cut (P (alo + (ahi - alo)) (foldl (λ '(j2len, best0) i,
           scan_row blo bhi i j2len
             (from_option (λ x, default [] (sm_b2j m !! x)) [] (item (sm_a m) i))
             ∅ best0) (∅, best) (seqZ alo (ahi - alo)))).
  { replace (alo + (ahi - alo)) with ahi by lia. by intros [_ ?]. }
  apply foldl_seqZ_inv; [lia| |]; unfold P.
  - split; [|done]. intros j k; simpl. by rewrite lookup_empty.
  - intros i [j2len best0] Hi [Hruns Hb]; simpl in *.
    replace (i + 1 - 1) with i by lia.
    apply scan_row_inv; [done| |..|lia].
    + intros j k. by rewrite lookup_empty.
    + unfold best_below in *. lia.
Qed.

Lemma grow_left_inside junk rounds best :
  inside alo ahi blo bhi best →
  inside alo ahi blo bhi (grow_left m alo blo junk rounds best).
Proof.
  revert best. induction rounds as [|r IH]; intros [[besti bestj] bestsize] Hin; simpl; [done|].
  destruct (_ && _) eqn:Hc; [|done].
  apply IH. apply andb_prop in Hc as [Hc _]. apply andb_prop in Hc as [H1 H2].
  apply bool_decide_eq_true in H1, H2. unfold inside, size in *; simpl in *. lia.
Qed.

Lemma grow_right_inside junk rounds best :
  inside alo ahi blo bhi best →
  inside alo ahi blo bhi (grow_right m ahi bhi junk rounds best).
Proof.
  revert best. induction rounds as [|r IH]; intros [[besti bestj] bestsize] Hin; simpl; [done|].
  destruct (_ && _) eqn:Hc; [|done].
  apply IH. apply andb_prop in Hc as [Hc _]. apply andb_prop in Hc as [H1 H2].
  apply bool_decide_eq_true in H1, H2. unfold inside, size in *; simpl in *. lia.
Qed.

(** The docstring's [alo <= i <= i+k <= ahi] and [blo <= j <= j+k <= bhi]. *)
Lemma find_longest_match_inside :
  alo ≤ ahi → blo ≤ bhi → inside alo ahi blo bhi (find_longest_match m alo ahi blo bhi).
Proof.
  intros Ha Hb. unfold find_longest_match.
  do 2 (apply grow_right_inside, grow_left_inside).
  destruct (scan_rows_inv (alo, blo, 0)) as (?&?&?&?&?); [done| |].
  - unfold best_below, size; simpl. lia.
  - unfold inside. lia.
Qed.

(** The extension loops stop by their condition: rounds beyond
    [left_rounds] and [right_rounds] are never used. *)
Lemma grow_left_enough junk rounds rounds' best :
  (left_rounds alo best ≤ rounds)%nat → (rounds ≤ rounds')%nat →
  grow_left m alo blo junk rounds' best = grow_left m alo blo junk rounds best.
Proof.
  revert rounds' best.
  induction rounds as [|r IH]; intros rounds' [[besti bestj] bestsize] Hl Hle.
  - unfold left_rounds in Hl; simpl in Hl. destruct rounds'; simpl; [done|].
    rewrite (bool_decide_eq_false_2 (besti > alo)) by lia. done.
  - destruct rounds' as [|r']; [lia|]. simpl.
    destruct (_ && _) eqn:Hc; [|done].
    apply IH; [|lia]. apply andb_prop in Hc as [Hc _]. apply andb_prop in Hc as [H1 _].
    apply bool_decide_eq_true in H1. unfold left_rounds in *; simpl in *. lia.
Qed.

Lemma grow_right_enough junk rounds rounds' best :
  (right_rounds ahi best ≤ rounds)%nat → (rounds ≤ rounds')%nat →
  grow_right m ahi bhi junk rounds' best = grow_right m ahi bhi junk rounds best.
Proof.
  revert rounds' best.
  induction rounds as [|r IH]; intros rounds' [[besti bestj] bestsize] Hl Hle.
  - unfold right_rounds, size in Hl; simpl in Hl. destruct rounds'; simpl; [done|].
    rewrite (bool_decide_eq_false_2 (besti + bestsize < ahi)) by lia. done.
  - destruct rounds' as [|r']; [lia|]. simpl.
    destruct (_ && _) eqn:Hc; [|done].
    apply IH; [|lia]. apply andb_prop in Hc as [Hc _]. apply andb_prop in Hc as [H1 _].
    apply bool_decide_eq_true in H1. unfold right_rounds, size in *; simpl in *. lia.
Qed.

End find_longest_match.

Section get_matching_blocks.
Context {A : Type} `{Countable A}.
Variable m : SequenceMatcher A.

Lemma sum_sizes_app (l1 l2 : list Match) :
  sum_sizes (l1 ++ l2) = sum_sizes l1 + sum_sizes l2.
Proof. induction l1 as [|x l1 IH]; simpl; [done|]. unfold sum_sizes in *. simpl. lia. Qed.

Lemma sum_sizes_perm (l1 l2 : list Match) : l1 ≡ₚ l2 → sum_sizes l1 = sum_sizes l2.
Proof. unfold sum_sizes. induction 1; simpl; lia. Qed.

Lemma sum_sizes_nonneg (blocks : list Match) : sizes_ok blocks → 0 ≤ sum_sizes blocks.
Proof. induction 1; unfold sum_sizes in *; simpl; lia. Qed.

(** With [work queue] iterations or more the loop empties the queue; what it
    adds to the blocks is bounded by what the queue covers of [a] and of
    [b]. *)
Lemma match_regions_spec rounds queue acc :
  Forall region_ok queue →
  (work queue ≤ rounds)%nat →
  sizes_ok acc →
  ∃ blocks, match_regions m rounds queue acc = Some blocks ∧
    sizes_ok blocks ∧
    sum_sizes blocks ≤ sum_sizes acc + span_a queue ∧
    sum_sizes blocks ≤ sum_sizes acc + span_b queue.
Proof.
  revert queue acc. induction rounds as [|r IH]; intros queue acc Hq Hw Hacc.
  - destruct queue as [|[[[alo ahi] blo] bhi] queue]; simpl in *; [|lia].
    exists acc. repeat split; try done; lia.
  - destruct queue as [|[[[alo ahi] blo] bhi] queue]; simpl in *.
    { exists acc. repeat split; try done; lia. }
    apply Forall_cons in Hq as [[Ha Hb] Hq].
    pose proof (find_longest_match_inside m alo ahi blo bhi Ha Hb) as Hin.
    destruct (find_longest_match m alo ahi blo bhi) as [[i j] k].
    unfold inside, size in Hin; simpl in Hin.
    case_bool_decide as Hk.
    + set (q1 := if bool_decide (alo < i ∧ blo < j) then (alo, i, blo, j) :: queue else queue).
      set (q2 := if bool_decide (i + k < ahi ∧ j + k < bhi)
                 then (i + k, ahi, j + k, bhi) :: q1 else q1).
      assert (Forall region_ok q1 ∧
              (work q1 ≤ 2 * Z.to_nat (i - alo) + 1 + work queue)%nat ∧
              span_a q1 ≤ (i - alo) + span_a queue ∧
              span_b q1 ≤ (j - blo) + span_b queue) as (Hq1 & Hw1 & Ha1 & Hb1).
      { unfold q1. case_bool_decide; simpl.
        - split; [apply Forall_cons; split; [split; lia|done]|]. lia.
        - split; [done|]. lia. }
      assert (Forall region_ok q2 ∧
              (work q2 ≤ 2 * Z.to_nat (ahi - (i + k)) + 1 + work q1)%nat ∧
              span_a q2 ≤ (ahi - (i + k)) + span_a q1 ∧
              span_b q2 ≤ (bhi - (j + k)) + span_b q1) as (Hq2 & Hw2 & Ha2 & Hb2).
      { unfold q2. case_bool_decide; simpl.
        - split; [apply Forall_cons; split; [split; lia|done]|]. lia.
        - split; [done|]. lia. }
      destruct (IH q2 (acc ++ [(i, j, k)])) as (blocks & Hr & Hok & Hsa & Hsb); [done|lia| |].
      { apply Forall_app; split; [done|]. apply Forall_singleton. unfold size; simpl. lia. }
      exists blocks. rewrite sum_sizes_app in Hsa, Hsb.
      change (sum_sizes [(i, j, k)]) with (k + 0) in Hsa, Hsb.
      repeat split; try done; lia.
    + destruct (IH queue acc) as (blocks & Hr & Hok & Hsa & Hsb); [done|lia|done|].
      exists blocks. repeat split; try done; lia.
Qed.

(** More iterations than needed change nothing. *)
Lemma match_regions_more rounds rounds' queue acc blocks :
  match_regions m rounds queue acc = Some blocks →
  (rounds ≤ rounds')%nat →
  match_regions m rounds' queue acc = Some blocks.
Proof.
  revert rounds' queue acc.
  induction rounds as [|r IH]; intros rounds' queue acc Hr Hle.
  - destruct queue as [|[[[alo ahi] blo] bhi] queue]; [|done].
    destruct rounds'; done.
  - destruct queue as [|[[[alo ahi] blo] bhi] queue].
    { destruct rounds'; done. }
    destruct rounds' as [|r']; [lia|]. simpl in *.
    destruct (find_longest_match m alo ahi blo bhi) as [[i j] k].
    case_bool_decide; apply IH; try done; lia.
Qed.

Lemma collapse_sum blocks cur non_adjacent :
  let r := collapse blocks cur non_adjacent in
  sum_sizes r.1 + size r.2 = sum_sizes blocks + size cur + sum_sizes non_adjacent.
Proof.
  revert cur non_adjacent.
  induction blocks as [|[[i2 j2] k2] blocks IH]; intros [[i1 j1] k1] non_adjacent; simpl.
  { unfold sum_sizes; simpl. lia. }
  case_bool_decide.
  - rewrite IH. unfold sum_sizes, size; simpl. lia.
  - rewrite IH. case_bool_decide.
    + rewrite sum_sizes_app. unfold sum_sizes, size; simpl. lia.
    + unfold sum_sizes, size in *; simpl. lia.
Qed.

(** Sorting, merging adjacent blocks and adding the dummy block keep the
    total size. *)
Lemma finish_blocks_sum la lb blocks :
  sum_sizes (finish_blocks la lb blocks) = sum_sizes blocks.
Proof.
  unfold finish_blocks.
  pose proof (collapse_sum (merge_sort Match_le blocks) (0, 0, 0) []) as Hc.
  destruct (collapse _ _ _) as [non_adjacent [[i1 j1] k1]]. simpl in Hc.
  rewrite (sum_sizes_perm _ _ (merge_sort_Permutation Match_le blocks)) in Hc.
  rewrite sum_sizes_app.
  case_bool_decide.
  - rewrite sum_sizes_app. unfold sum_sizes, size in *; simpl in *. lia.
  - unfold sum_sizes, size in *; simpl in *. lia.
Qed.

(** The queue loop of [get_matching_blocks] ends within [queue_rounds]
    iterations, and the blocks it finds cover no more than either sequence. *)
Lemma match_regions_terminates :
  let la := Z.of_nat (length (sm_a m)) in
  let lb := Z.of_nat (length (sm_b m)) in
  ∃ blocks, match_regions m (queue_rounds m) [(0, la, 0, lb)] [] = Some blocks ∧
    0 ≤ sum_sizes blocks ∧ sum_sizes blocks ≤ la ∧ sum_sizes blocks ≤ lb.
Proof.
  intros la lb.
  destruct (match_regions_spec (queue_rounds m) [(0, la, 0, lb)] [])
    as (blocks & Hr & Hok & Ha & Hb).
  - apply Forall_singleton. unfold region_ok, la, lb. lia.
  - unfold work, queue_rounds, la. simpl. lia.
  - constructor.
  - exists blocks. split; [done|].
    change (sum_sizes []) with 0 in Ha, Hb.
    change (span_a _) with (la - 0 + 0) in Ha. change (span_b _) with (lb - 0 + 0) in Hb.
    split; [by apply sum_sizes_nonneg|lia].
Qed.

(** [get_matching_blocks] is the result of the loop run with any number of
    iterations from [queue_rounds] on. *)
Lemma get_matching_blocks_enough rounds :
  (queue_rounds m ≤ rounds)%nat →
  get_matching_blocks_within rounds m = Some (get_matching_blocks m).
Proof.
  intros Hle. destruct match_regions_terminates as (blocks & Hr & _).
  unfold get_matching_blocks, get_matching_blocks_within.
  rewrite Hr, (match_regions_more _ _ _ _ _ Hr Hle). done.
Qed.

Lemma matches_bounds :
  let matches := sum_sizes (get_matching_blocks m) in
  0 ≤ matches ∧ matches ≤ Z.of_nat (length (sm_a m)) ∧ matches ≤ Z.of_nat (length (sm_b m)).
Proof.
  destruct match_regions_terminates as (blocks & Hr & H0 & Ha & Hb).
  unfold get_matching_blocks, get_matching_blocks_within. rewrite Hr. simpl.
  rewrite finish_blocks_sum. done.
Qed.

Lemma calculate_ratio_bounds matches length :
  0 ≤ matches → 2 * matches ≤ length →
  (0 <= calculate_ratio matches length <= 1)%Q.
Proof.
  intros H0 H2. unfold calculate_ratio. case_bool_decide as Hl; [|done].
  assert (0 < inject_Z length)%Q as Hpos.
  { rewrite <- (Zlt_Qlt 0). lia. }
  split.
  - apply Qle_shift_div_l; [done|]. rewrite Qmult_0_l.
    change 2%Q with (inject_Z 2). rewrite <- inject_Z_mult, <- (Zle_Qle 0). lia.
  - apply Qle_shift_div_r; [done|]. rewrite Qmult_1_l.
    change 2%Q with (inject_Z 2). rewrite <- inject_Z_mult, <- Zle_Qle. lia.
Qed.

(** The docstring of [ratio]: a float in [[0,1]]. *)
Lemma ratio_bounds : (0 <= ratio m <= 1)%Q.
Proof.
  destruct matches_bounds as (H0 & Ha & Hb).
  unfold ratio. apply calculate_ratio_bounds; [done|lia].
Qed.

End get_matching_blocks.

Lemma str_ratio_bounds (a b : string) : (0 <= str_ratio a b <= 1)%Q.
Proof. apply ratio_bounds. Qed.

(** Nothing matches the empty string. *)
Lemma str_ratio_empty_l (b : string) :
  str_ratio "" b = calculate_ratio 0 (0 + Z.of_nat (length (String.list_ascii_of_string b))).
Proof. reflexivity. Qed.

End DifflibFacts.

(** ** The scorer *)

Import StrFacts.

Lemma similarity_empty_name_nonempty (n : string) :
  n ≠ "" → similarity_of "" n = 0.8%Q.
Proof.
  intros Hn. unfold similarity_of.
  rewrite contains_empty, DifflibFacts.str_ratio_empty_l.
  destruct n as [|c n]; [done|]. simpl.
  unfold Difflib.calculate_ratio. rewrite bool_decide_eq_true_2 by lia.
  unfold max. destruct (Qlt_le_dec _ _) as [|Hle]; [done|].
  exfalso. revert Hle. unfold Qle, Qdiv, Qmult, Qinv, inject_Z. simpl. lia.
Qed.

Lemma similarity_empty_name_empty : similarity_of "" "" = 1%Q.
Proof. reflexivity. Qed.

Lemma similarity_empty_name_ge (n : string) : (0.8 <= similarity_of "" n)%Q.
Proof.
  destruct (decide (n = "")) as [->|Hn].
  - rewrite similarity_empty_name_empty. done.
  - rewrite similarity_empty_name_nonempty by done. apply Qle_refl.
Qed.

(** C4: when the business name occurs in the candidate's name the score is
    [max(ratio, 0.8)]: it is at least 0.8 and at least the ratio, and it is
    one of the two; otherwise the score is the ratio.  Every score lies in
    [[0,1]]. *)
Theorem similarity_boost_and_range (business_name place_name : string) :
  (occurs business_name place_name →
   similarity_of business_name place_name =
     max (Difflib.str_ratio business_name place_name) 0.8 ∧
   (0.8 <= similarity_of business_name place_name)%Q ∧
   (Difflib.str_ratio business_name place_name <=
      similarity_of business_name place_name)%Q ∧
   (similarity_of business_name place_name = Difflib.str_ratio business_name place_name ∨
    similarity_of business_name place_name = 0.8%Q)) ∧
  (¬ occurs business_name place_name →
   similarity_of business_name place_name = Difflib.str_ratio business_name place_name) ∧
  (0 <= similarity_of business_name place_name <= 1)%Q.
Proof.
  pose proof (DifflibFacts.str_ratio_bounds business_name place_name) as [H0 H1].
  unfold similarity_of, max. split; [|split; [|split]].
  - intros Hocc. apply contains_spec in Hocc. rewrite Hocc. split; [done|].
    destruct (Qlt_le_dec _ _) as [Hlt|Hle].
    + split; [apply Qle_refl|]. split; [by apply Qlt_le_weak|by right].
    + split; [done|]. split; [apply Qle_refl|by left].
  - intros Hnot. destruct (Str.contains business_name place_name) eqn:Hc; [|done].
    by apply contains_spec in Hc.
  - destruct (Str.contains business_name place_name); [|done].
    by destruct (Qlt_le_dec _ _).
  - destruct (Str.contains business_name place_name); [|done].
    destruct (Qlt_le_dec _ _); [|done]. by vm_compute.
Qed.

Lemma similarity_boost_and_range_witness :
  ((0.8 <= similarity_of "acme" "acme holiday lighting co")%Q ∧
   (Difflib.str_ratio "acme" "acme holiday lighting co" < 0.8)%Q) ∧
  ((Difflib.str_ratio "acme lighting" "acme lighting co" <=
      similarity_of "acme lighting" "acme lighting co")%Q ∧
   (0.8 < Difflib.str_ratio "acme lighting" "acme lighting co")%Q) ∧
  (similarity_of "acme lighting" "zenith plumbing" =
     Difflib.str_ratio "acme lighting" "zenith plumbing" ∧
   (similarity_of "acme lighting" "zenith plumbing" < 0.8)%Q).
Proof.
  split; [|split].
  - split; [|vm_compute; reflexivity].
    apply (proj1 (similarity_boost_and_range "acme" "acme holiday lighting co")).
    exists "", " holiday lighting co". reflexivity.
  - split; [|vm_compute; reflexivity].
    apply (proj1 (similarity_boost_and_range "acme lighting" "acme lighting co")).
    exists "", " co". reflexivity.
  - split; [|vm_compute; reflexivity].
    apply (proj1 (proj2 (similarity_boost_and_range "acme lighting" "zenith plumbing"))).
    intros Hocc. apply contains_spec in Hocc. vm_compute in Hocc. discriminate.
Defined.

(** The spec's other sample: identical names score 1.0. *)
Example similarity_identical :
  (similarity_of "acme lighting" "acme lighting" == 1)%Q.
Proof. vm_compute. reflexivity. Qed.

(** ** White space and case *)

Module TextFacts.
Import StrFacts.

Lemma rstrip_cons (c : ascii) (s : string) :
  Str.rstrip (String c s) =
    match Str.rstrip s with
    | "" => if Str.isspace c then "" else String c ""
    | r => String c r
    end.
Proof. reflexivity. Qed.

Lemma rstrip_cons_nonspace (c : ascii) (s : string) :
  Str.isspace c = false → Str.rstrip (String c s) = String c (Str.rstrip s).
Proof. intros Hc. rewrite rstrip_cons, Hc. by destruct (Str.rstrip s). Qed.


Lemma lstrip_head (s : string) :
  Str.lstrip s = "" ∨ ∃ c t, Str.lstrip s = String c t ∧ Str.isspace c = false.
Proof.
  induction s as [|c s IH]; [by left|]. simpl.
  destruct (Str.isspace c) eqn:Hc; [done|]. right. eauto.
Qed.

Lemma lstrip_nonspace (c : ascii) (s : string) :
  Str.isspace c = false → Str.lstrip (String c s) = String c s.
Proof. intros Hc. simpl. by rewrite Hc. Qed.


Lemma strip_of_trimmed (s : string) : trimmed s → Str.strip s = s.
Proof. intros [Hl Hr]. unfold Str.strip. by rewrite Hl. Qed.

Lemma chars_of_app (s1 s2 : string) : chars_of (s1 +:+ s2) = chars_of s1 ++ chars_of s2.
Proof. induction s1 as [|c s1 IH]; [done|]. rewrite append_cons. simpl. by f_equal. Qed.

Lemma all_chars_cons P c s : all_chars P (String c s) ↔ P c ∧ all_chars P s.
Proof. unfold all_chars. simpl. apply Forall_cons. Qed.








Lemma words_cons (c : ascii) (s : string) :
  Str.words (String c s) =
    if Str.isspace c then Str.words s
    else match s with
         | "" => [String c ""]
         | String c' _ =>
             if Str.isspace c' then String c "" :: Str.words s
             else match Str.words s with
                  | w :: ws => String c w :: ws
                  | [] => [String c ""]
                  end
         end.
Proof. reflexivity. Qed.

Lemma words_word (s : string) : Forall word (Str.words s).
Proof.
  induction s as [|c s IH]; [constructor|]. rewrite words_cons.
  destruct (Str.isspace c) eqn:Hc; [done|].
  assert (word (String c "")) as Hone.
  { split; [done|]. apply all_chars_cons. split; [done|constructor]. }
  destruct s as [|c' s']; [by repeat constructor|].
  destruct (Str.isspace c'); [by constructor|].
  destruct (Str.words (String c' s')) as [|w ws]; [by repeat constructor|].
  apply Forall_cons in IH as [[Hw Hall] Hws]. constructor; [|done].
  split; [done|]. by apply all_chars_cons.
Qed.


Lemma join_cons (sep w : string) (ws : list string) :
  Str.join sep (w :: ws) = match ws with [] => w | _ => w +:+ sep +:+ Str.join sep ws end.
Proof. by destruct ws. Qed.


Lemma rstrip_word (w : string) :
  all_chars (λ c, Str.isspace c = false) w → Str.rstrip w = w.
Proof.
  induction w as [|c w IH]; [done|]. intros Hw. apply all_chars_cons in Hw as [Hc Hw].
  rewrite rstrip_cons_nonspace by done. by rewrite IH.
Qed.

Lemma rstrip_app (s1 s2 : string) :
  s2 ≠ "" → Str.rstrip s2 = s2 → Str.rstrip (s1 +:+ s2) = s1 +:+ s2.
Proof.
  intros Hne Hr. induction s1 as [|c s1 IH]; [done|].
  rewrite append_cons, rstrip_cons, IH.
  destruct (s1 +:+ s2) as [|a r] eqn:Happ; [|done].
  destruct s1; [|done]. by rewrite append_empty in Happ.
Qed.

Lemma join_words_nonempty (ws : list string) :
  Forall word ws → ws ≠ [] → Str.join " " ws ≠ "".
Proof.
  intros Hws Hne. destruct Hws as [|w ws [Hw _] Hws]; [done|].
  rewrite join_cons. destruct ws; [done|]. destruct w; [done|]. by rewrite append_cons.
Qed.

(** Words joined by single spaces have no white space at either end. *)
Lemma join_words_trimmed (ws : list string) : Forall word ws → trimmed (Str.join " " ws).
Proof.
  intros Hws. split.
  - destruct Hws as [|w ws [Hne Hw] Hws]; [done|].
    destruct w as [|c w]; [done|]. apply all_chars_cons in Hw as [Hc _].
    rewrite join_cons. destruct ws; [by apply lstrip_nonspace|].
    rewrite append_cons. by apply lstrip_nonspace.
  - induction Hws as [|w ws [Hne Hw] Hws IH]; [done|].
    rewrite join_cons. destruct ws as [|w' ws']; [by apply rstrip_word|].
    apply rstrip_app.
    + by rewrite append_cons.
    + change (" " +:+ Str.join " " (w' :: ws')) with (String " " (Str.join " " (w' :: ws'))).
      rewrite rstrip_cons, IH.
      pose proof (join_words_nonempty (w' :: ws') Hws ltac:(done)) as Hj.
      by destruct (Str.join " " (w' :: ws')).
Qed.

(** [strip] removes white space from the two ends and nothing else. *)
Lemma blank_empty : blank "".
Proof. constructor. Qed.

Lemma lstrip_blank (s : string) : ∃ l, s = l +:+ Str.lstrip s ∧ blank l.
Proof.
  induction s as [|c s (l & Hl & Hblank)]; [exists ""; split; [done|apply blank_empty]|].
  simpl. destruct (Str.isspace c) eqn:Hc.
  - exists (String c l). rewrite append_cons, <- Hl. split; [done|]. by apply all_chars_cons.
  - exists "". split; [done|apply blank_empty].
Qed.

Lemma rstrip_blank (s : string) : ∃ r, s = Str.rstrip s +:+ r ∧ blank r.
Proof.
  induction s as [|c s (r & Hr & Hblank)]; [exists ""; split; [done|apply blank_empty]|].
  rewrite rstrip_cons. destruct (Str.rstrip s) as [|a t] eqn:Hs.
  - rewrite append_empty in Hr. subst r. destruct (Str.isspace c) eqn:Hc.
    + exists (String c s). rewrite append_empty. split; [done|]. by apply all_chars_cons.
    + exists s. by rewrite append_cons, append_empty.
  - exists r. by rewrite append_cons, <- Hr.
Qed.

Lemma rstrip_last (s t : string) (c : ascii) :
  Str.rstrip s = t +:+ String c "" → Str.isspace c = false.
Proof.
  revert t. induction s as [|a s IH]; intros t Heq.
  { destruct t; done. }
  rewrite rstrip_cons in Heq. destruct (Str.rstrip s) as [|b r].
  - destruct (Str.isspace a) eqn:Ha; [by destruct t|].
    destruct t as [|x t].
    + rewrite append_empty in Heq. by injection Heq as <-.
    + rewrite append_cons in Heq. injection Heq as _ Heq. by destruct t.
  - destruct t as [|x t].
    + rewrite append_empty in Heq. by injection Heq.
    + rewrite append_cons in Heq. injection Heq as _ Heq. by apply (IH t).
Qed.

Lemma strip_stripped (s : string) : stripped_of s (Str.strip s).
Proof.
  unfold stripped_of, Str.strip. split; [|split].
  - destruct (lstrip_blank s) as (l & Hl & Hblank).
    destruct (rstrip_blank (Str.lstrip s)) as (r & Hr & Hblank').
    exists l, r. split; [|done]. by rewrite <- Hr.
  - intros c t Heq.
    destruct (lstrip_head s) as [Hs | (a & u & Hs & Ha)]; rewrite Hs in Heq; [done|].
    rewrite rstrip_cons_nonspace in Heq by done. by injection Heq as <-.
  - intros t c. apply rstrip_last.
Qed.

End TextFacts.

Import TextFacts.

(** ** The query normaliser *)

(** C8: the " in " separator is tried first, then ", "; when one occurs the
    result is the lower-cased query up to its first occurrence, without the
    white space at its two ends.  The samples include queries with blanks,
    a tab and a line feed around the name. *)
Theorem extract_business_name_separators (query : string) :
  let query_lower := Str.lower query in
  (occurs " in " query_lower →
   ∃ pre, first_occurrence " in " query_lower pre ∧
          extract_business_name query = Str.strip pre ∧
          stripped_of pre (extract_business_name query)) ∧
  (¬ occurs " in " query_lower → occurs ", " query_lower →
   ∃ pre, first_occurrence ", " query_lower pre ∧
          extract_business_name query = Str.strip pre ∧
          stripped_of pre (extract_business_name query)) ∧
  extract_business_name "Acme Lighting in Salt Lake City" = "acme lighting" ∧
  extract_business_name "Acme Lighting, SLC" = "acme lighting" ∧
  extract_business_name "  Acme Lighting   in Salt Lake City" = "acme lighting" ∧
  extract_business_name
    (String "009" ("Acme Lighting" +:+ String "010" " , SLC")) = "acme lighting".
Proof.
  intros query_lower. split; [|split; [|by repeat split]].
  - intros Hin. apply contains_spec in Hin.
    destruct (split_first_occurrence " in " query_lower) as (pre & rest & Hsplit & Hfirst);
      [done|done|].
    assert (extract_business_name query = Str.strip pre) as Hname.
    { unfold extract_business_name. fold query_lower.
      simpl List.find. by rewrite Hin, Hsplit. }
    exists pre. split; [done|]. split; [done|]. rewrite Hname. apply strip_stripped.
  - intros Hnot Hcomma. apply contains_spec in Hcomma.
    assert (Str.contains " in " query_lower = false) as Hin.
    { apply not_true_is_false. by rewrite contains_spec. }
    destruct (split_first_occurrence ", " query_lower) as (pre & rest & Hsplit & Hfirst);
      [done|done|].
    assert (extract_business_name query = Str.strip pre) as Hname.
    { unfold extract_business_name. fold query_lower.
      simpl List.find. by rewrite Hin, Hcomma, Hsplit. }
    exists pre. split; [done|]. split; [done|]. rewrite Hname. apply strip_stripped.
Qed.

Lemma extract_business_name_separators_witness :
  (∃ pre, first_occurrence " in " (Str.lower "  Acme Lighting   in Salt Lake City") pre ∧
          extract_business_name "  Acme Lighting   in Salt Lake City" = Str.strip pre ∧
          stripped_of pre (extract_business_name "  Acme Lighting   in Salt Lake City")) ∧
  (∃ pre, first_occurrence ", " (Str.lower "Acme Lighting , SLC") pre ∧
          extract_business_name "Acme Lighting , SLC" = Str.strip pre ∧
          stripped_of pre (extract_business_name "Acme Lighting , SLC")).
Proof.
  split.
  - apply (proj1 (extract_business_name_separators "  Acme Lighting   in Salt Lake City")).
    exists "  acme lighting  ", "salt lake city". reflexivity.
  - apply (proj1 (proj2 (extract_business_name_separators "Acme Lighting , SLC"))).
    + intros Hin. apply contains_spec in Hin. vm_compute in Hin. discriminate.
    + exists "acme lighting ", "slc". reflexivity.
Defined.

(** The part before the separator is not the result when it has white space
    at an end. *)
Example extract_business_name_padded :
  first_occurrence " in " (Str.lower "  Acme Lighting   in Salt Lake City")
    "  acme lighting  " ∧
  extract_business_name "  Acme Lighting   in Salt Lake City" ≠ "  acme lighting  ".
Proof.
  split; [|discriminate]. split; [by exists "salt lake city"|].
  intros pre' post' Heq.
  destruct (decide (String.length pre' < 17)) as [Hlt|]; [|simpl; lia]. exfalso.
  do 17 (destruct pre' as [|? pre']; [by vm_compute in Heq|];
         rewrite append_cons in Heq; injection Heq as <- Heq).
  simpl in Hlt. lia.
Qed.

(** Without a separator the location words are dropped; "salt lake city" is
    never one token, so its words stay. *)
Example extract_business_name_stoplist :
  extract_business_name "Acme Lighting Salt Lake City" = "acme lighting salt lake" ∧
  extract_business_name "Utah SLC" = "".
Proof. split; reflexivity. Qed.

(** ** The match step *)

Lemma best_of_spec bn cands names best0 score0 :
  named cands names →
  ∃ best score, best_of bn cands best0 score0 = Returns (best, score) ∧
    ((best = best0 ∧ score = score0 ∧
      Forall (λ n, (similarity_of bn n <= score0)%Q) names) ∨
     ((score0 < score)%Q ∧ ∃ i, first_maximum bn cands names i best score)).
Proof.
  intros Hnamed. revert best0 score0.
  induction Hnamed as [|c n cands names Hn Hnamed IH]; intros best0 score0; simpl.
  { exists best0, score0. split; [done|]. left. by repeat split. }
  rewrite Hn. simpl.
  destruct (Qlt_le_dec score0 (similarity_of bn n)) as [Hlt|Hle].
  - destruct (IH c (similarity_of bn n)) as (best & score & -> & Hcase).
    exists best, score. split; [done|]. right.
    destruct Hcase as [(-> & -> & Hall) | (Hlt' & i & n' & Hc & Hn' & Hs & Hbefore & Hevery)].
    + split; [done|]. exists 0, n. repeat split; try done.
      * intros j n' Hj. lia.
      * intros [|j] n' Hj; simpl in Hj.
        -- injection Hj as <-. apply Qle_refl.
        -- rewrite Forall_forall in Hall. apply Hall. eapply list_elem_of_lookup_2, Hj.
    + split; [by eapply Qlt_trans|]. exists (S i), n'. repeat split; try done.
      * intros [|j] n'' Hj Hl; simpl in Hl.
        -- by injection Hl as <-.
        -- apply (Hbefore j); [lia|done].
      * intros [|j] n'' Hl; simpl in Hl.
        -- injection Hl as <-. by apply Qlt_le_weak.
        -- by apply (Hevery j).
  - destruct (IH best0 score0) as (best & score & -> & Hcase).
    exists best, score. split; [done|].
    destruct Hcase as [(-> & -> & Hall) | (Hlt' & i & n' & Hc & Hn' & Hs & Hbefore & Hevery)].
    + left. repeat split; try done. by constructor.
    + right. split; [done|]. exists (S i), n'. repeat split; try done.
      * intros [|j] n'' Hj Hl; simpl in Hl.
        -- injection Hl as <-. by eapply Qle_lt_trans.
        -- apply (Hbefore j); [lia|done].
      * intros [|j] n'' Hl; simpl in Hl.
        -- injection Hl as <-. apply Qlt_le_weak. by eapply Qle_lt_trans.
        -- by apply (Hevery j).
Qed.

Lemma named_display_text c n :
  place_name_of c = Returns n → ∃ x, display_text c (PStr "") = Returns x.
Proof.
  unfold place_name_of. destruct (display_text c (PStr "")) as [x|]; [eauto|done].
Qed.

Lemma named_not_none cands names i :
  named cands names → cands !! i ≠ Some PNone.
Proof.
  intros Hnamed Hi. destruct (Forall2_lookup_l _ _ _ _ _ Hnamed Hi) as (n & _ & Hn). done.
Qed.

Lemma positive_absent bn names :
  Forall (λ n, (similarity_of bn n <= 0)%Q) names → ¬ some_positive bn names.
Proof.
  unfold some_positive. rewrite Forall_forall, Exists_exists. intros Hall (n & Hn & Hpos).
  apply (Qlt_not_le _ _ Hpos). by apply Hall.
Qed.

(** [find_best_match] on a non-empty list of readable candidates: either no
    candidate scores above zero and nothing is selected, or the first
    candidate of greatest score is. *)
Lemma find_best_match_spec query cands names :
  named cands names →
  cands ≠ [] →
  ∃ best score, find_best_match query (PList cands) = Returns (best, score) ∧
    ((best = PNone ∧ score = 0%Q ∧
      Forall (λ n, (similarity_of (extract_business_name query) n <= 0)%Q) names) ∨
     ((0 < score)%Q ∧
      ∃ i, first_maximum (extract_business_name query) cands names i best score)).
Proof.
  intros Hnamed Hne. unfold find_best_match.
  assert (truthy (PList cands) = true) as -> by (by destruct cands).
  destruct (best_of_spec (extract_business_name query) cands names PNone 0 Hnamed)
    as (best & score & Hbest & Hcase).
  exists best, score. simpl. rewrite Hbest. simpl.
  destruct Hcase as [(-> & -> & Hall) | (Hlt & i & Hmax)].
  - simpl. split; [done|]. by left.
  - assert (∃ x, display_text best (PStr "") = Returns x) as [x Hx].
    { destruct Hmax as (n & Hi & Hn & _).
      destruct (Forall2_lookup_l _ _ _ _ _ Hnamed Hi) as (n' & _ & Hpn).
      by eapply named_display_text. }
    rewrite Hx. split; [by destruct (truthy best)|]. right. eauto.
Qed.

Lemma truthy_dict_lookup d k v : d !! k = Some v → truthy (PDict d) = true.
Proof.
  intros Hk. simpl. apply negb_true_iff, bool_decide_eq_false.
  intros ->. by rewrite lookup_empty in Hk.
Qed.

(** C3 (amended): on a non-empty list of readable candidates the match step
    returns a candidate exactly when some candidate scores above zero; when
    none does it returns [(None, 0.0)] and the resolution ends with
    "No good match found". *)
Theorem match_found_iff_positive_score query cands names :
  named cands names →
  cands ≠ [] →
  ∃ best score, find_best_match query (PList cands) = Returns (best, score) ∧
    (best ≠ PNone ↔ some_positive (extract_business_name query) names) ∧
    (¬ some_positive (extract_business_name query) names →
     best = PNone ∧ score = 0%Q ∧
     ∀ gw include_reviews log d,
       gw log (SearchText query 5) = Some (PDict d) →
       d !! "places" = Some (PList cands) →
       lookup_business gw query include_reviews log =
         (Returns (failure query "No good match found", []),
          log ++ [SearchText query 5])).
Proof.
  intros Hnamed Hne.
  destruct (find_best_match_spec query cands names Hnamed Hne)
    as (best & score & Hbest & Hcase).
  exists best, score. split; [done|].
  destruct Hcase as [(-> & -> & Hall) | (Hlt & i & n & Hi & Hn & -> & _ & _)].
  - pose proof (positive_absent _ _ Hall) as Hnone. split; [split; done|].
    intros _. repeat split.
    intros gw include_reviews log d Hsearch Hplaces.
    unfold lookup_business, search_text, request, lift. unfold mbind, io_bind.
    rewrite Hsearch. simpl default.
    rewrite (truthy_dict_lookup _ _ _ Hplaces). simpl. rewrite Hplaces. simpl.
    destruct cands as [|c0 cands]; [done|]. by rewrite Hbest.
  - assert (some_positive (extract_business_name query) names) as Hex.
    { apply Exists_exists. exists n. split; [|done]. eapply list_elem_of_lookup_2, Hn. }
    split; [|done]. split; [done|]. intros _ ->. by eapply named_not_none.
Qed.

Lemma match_found_iff_positive_score_witness :
  ∃ best score,
    find_best_match "Acme Lighting, SLC" (PList [candidate "p1" "Acme Lighting Co"]) =
      Returns (best, score) ∧
    (best ≠ PNone ↔
     some_positive (extract_business_name "Acme Lighting, SLC") ["acme lighting co"]) ∧
    (¬ some_positive (extract_business_name "Acme Lighting, SLC") ["acme lighting co"] →
     best = PNone ∧ score = 0%Q ∧
     ∀ gw include_reviews log d,
       gw log (SearchText "Acme Lighting, SLC" 5) = Some (PDict d) →
       d !! "places" = Some (PList [candidate "p1" "Acme Lighting Co"]) →
       lookup_business gw "Acme Lighting, SLC" include_reviews log =
         (Returns (failure "Acme Lighting, SLC" "No good match found", []),
          log ++ [SearchText "Acme Lighting, SLC" 5])).
Proof.
  apply (match_found_iff_positive_score "Acme Lighting, SLC"
           [candidate "p1" "Acme Lighting Co"] ["acme lighting co"]).
  - repeat constructor.
  - discriminate.
Defined.

(** C3 as stated fails: the search returns one candidate, the match step
    selects none, and the resolution ends with "No good match found". *)
Lemma no_good_match_reached :
  find_best_match "abc" (PList [candidate "p1" "xyz"]) = Returns (PNone, 0%Q) ∧
  lookup_business (details_down [candidate "p1" "xyz"]) "abc" true [] =
    (Returns (failure "abc" "No good match found", []), [SearchText "abc" 5]).
Proof. split; vm_compute; reflexivity. Qed.

(** C5 (amended): when some candidate scores above zero, the match step
    returns the candidate of greatest score, the first of them in input
    order when several attain it; when no candidate scores above zero it
    selects none and returns [(None, 0.0)]. *)
Theorem best_match_is_first_maximum query cands names :
  named cands names →
  (some_positive (extract_business_name query) names →
   ∃ i best score, find_best_match query (PList cands) = Returns (best, score) ∧
     first_maximum (extract_business_name query) cands names i best score) ∧
  (¬ some_positive (extract_business_name query) names →
   find_best_match query (PList cands) = Returns (PNone, 0%Q)).
Proof.
  intros Hnamed.
  destruct cands as [|c cands].
  { apply Forall2_nil_inv_l in Hnamed as ->.
    split; [intros Hex; by apply Exists_nil in Hex|done]. }
  destruct (find_best_match_spec query (c :: cands) names Hnamed ltac:(done))
    as (best & score & Hbest & [(-> & -> & Hall) | (Hlt & i & Hmax)]).
  - split; [|done]. intros Hex. by apply positive_absent in Hall.
  - split; [intros _; by exists i, best, score|].
    intros Hnone. exfalso. apply Hnone.
    destruct Hmax as (n & _ & Hn & -> & _).
    apply Exists_exists. exists n. split; [|done]. by eapply list_elem_of_lookup_2.
Qed.

Lemma best_match_is_first_maximum_witness :
  (∃ i best score,
     find_best_match "Acme Lighting Salt Lake City"
       (PList [candidate "p1" "Acme Lighting"; candidate "p2" "Acme Lighting Co of Utah"]) =
       Returns (best, score) ∧
     first_maximum (extract_business_name "Acme Lighting Salt Lake City")
       [candidate "p1" "Acme Lighting"; candidate "p2" "Acme Lighting Co of Utah"]
       ["acme lighting"; "acme lighting co of utah"] i best score) ∧
  find_best_match "abc" (PList [candidate "p1" "xyz"; candidate "p2" "uvw"]) =
    Returns (PNone, 0%Q).
Proof.
  split.
  - apply (best_match_is_first_maximum "Acme Lighting Salt Lake City"
             [candidate "p1" "Acme Lighting"; candidate "p2" "Acme Lighting Co of Utah"]
             ["acme lighting"; "acme lighting co of utah"]).
    + repeat constructor.
    + apply Exists_cons_hd. vm_compute. reflexivity.
  - apply (best_match_is_first_maximum "abc"
             [candidate "p1" "xyz"; candidate "p2" "uvw"] ["xyz"; "uvw"]).
    + repeat constructor.
    + intros Hex. unfold some_positive in Hex.
      apply Exists_cons in Hex as [Hex|Hex]; [by vm_compute in Hex|].
      apply Exists_cons in Hex as [Hex|Hex]; [by vm_compute in Hex|].
      by apply Exists_nil in Hex.
Defined.

(** The spec's sample: the first listed candidate wins, and a tie keeps the
    first. *)
Example best_match_samples :
  find_best_match "Acme Lighting Salt Lake City"
    (PList [candidate "p1" "Acme Lighting"; candidate "p2" "Acme Lighting Co of Utah"]) =
    Returns (candidate "p1" "Acme Lighting", 26 # 36) ∧
  find_best_match "Acme Lighting, SLC"
    (PList [candidate "p1" "Acme Lighting"; candidate "p2" "Acme Lighting"]) =
    Returns (candidate "p1" "Acme Lighting", 26 # 26).
Proof. split; vm_compute; reflexivity. Qed.

(** C5 as stated fails: a single candidate has the greatest score of its
    list, and so has the first of two candidates that both score zero; in
    neither list is a candidate selected. *)
Lemma zero_scores_select_nothing :
  named [candidate "p1" "xyz"; candidate "p2" "uvw"] ["xyz"; "uvw"] ∧
  (similarity_of (extract_business_name "abc") "xyz" == 0)%Q ∧
  (similarity_of (extract_business_name "abc") "uvw" == 0)%Q ∧
  find_best_match "abc" (PList [candidate "p1" "xyz"; candidate "p2" "uvw"]) =
    Returns (PNone, 0%Q) ∧
  find_best_match "abc" (PList [candidate "p2" "uvw"]) = Returns (PNone, 0%Q).
Proof. split; [repeat constructor|]. repeat split; vm_compute; reflexivity. Qed.

(** C10 (amended): with an empty business name every candidate name contains
    it and scores at least 0.8: exactly 0.8 when the name is non-empty and
    1.0 when it is empty.  The candidate selected is the first one with an
    empty name when there is one, and the first candidate otherwise. *)
Theorem empty_business_name_selection query cands names :
  extract_business_name query = "" →
  named cands names →
  cands ≠ [] →
  Forall (λ n, Str.contains "" n = true ∧ (0.8 <= similarity_of "" n)%Q) names ∧
  ∃ i best score,
    find_best_match query (PList cands) = Returns (best, score) ∧
    cands !! i = Some best ∧ (0.8 <= score)%Q ∧
    ((names !! i = Some "" ∧ score = 1%Q ∧ ∀ j, j < i → names !! j ≠ Some "") ∨
     (i = 0 ∧ score = 0.8%Q ∧ "" ∉ names)).
Proof.
  intros Hbn Hnamed Hne. split.
  { apply Forall_forall. intros n _.
    split; [apply contains_empty|apply similarity_empty_name_ge]. }
  destruct (find_best_match_spec query cands names Hnamed Hne)
    as (best & score & Hbest & Hcase).
  rewrite Hbn in Hcase.
  destruct Hcase as [(-> & -> & Hall) | (Hlt & i & n & Hi & Hn & -> & Hbefore & Hevery)].
  - exfalso. destruct Hnamed as [|c n cands names Hc Hnamed]; [done|].
    apply Forall_cons in Hall as [Hle _].
    pose proof (similarity_empty_name_ge n) as Hge.
    pose proof (Qle_trans _ _ _ Hge Hle) as Habs. by vm_compute in Habs.
  - exists i, best, (similarity_of "" n). repeat split; try done.
    { apply similarity_empty_name_ge. }
    destruct (decide (n = "")) as [->|Hnn].
    + left. repeat split; try done. intros j Hj Hjn.
      specialize (Hbefore j "" Hj Hjn). by apply Qlt_irrefl in Hbefore.
    + right. rewrite similarity_empty_name_nonempty in * by done.
      assert ("" ∉ names) as Hnot.
      { intros Hin. apply list_elem_of_lookup_1 in Hin as [j Hj].
        specialize (Hevery j "" Hj). rewrite similarity_empty_name_empty in Hevery.
        by vm_compute in Hevery. }
      repeat split; try done.
      destruct i as [|i]; [done|]. exfalso.
      destruct names as [|n0 names]; [done|].
      assert (n0 ≠ "") as Hn0. { intros ->. apply Hnot. left. }
      specialize (Hbefore 0 n0 ltac:(lia) eq_refl).
      rewrite similarity_empty_name_nonempty in Hbefore by done.
      by apply Qlt_irrefl in Hbefore.
Qed.

Lemma empty_business_name_selection_witness :
  Forall (λ n, Str.contains "" n = true ∧ (0.8 <= similarity_of "" n)%Q)
    ["acme lighting"; "utah lights"] ∧
  ∃ i best score,
    find_best_match "Utah SLC"
      (PList [candidate "p1" "Acme Lighting"; candidate "p2" "Utah Lights"]) =
      Returns (best, score) ∧
    [candidate "p1" "Acme Lighting"; candidate "p2" "Utah Lights"] !! i = Some best ∧
    (0.8 <= score)%Q ∧
    ((["acme lighting"; "utah lights"] !! i = Some "" ∧ score = 1%Q ∧
      ∀ j, j < i → ["acme lighting"; "utah lights"] !! j ≠ Some "") ∨
     (i = 0 ∧ score = 0.8%Q ∧ "" ∉ ["acme lighting"; "utah lights"])).
Proof.
  apply (empty_business_name_selection "Utah SLC").
  - reflexivity.
  - repeat constructor.
  - discriminate.
Defined.

(** An empty object among the candidates: with an empty business name the
    match step returns it with score 1.0, and [lookup_business], which
    tests [not best_match], treats it as no match. *)
Example empty_object_candidate :
  find_best_match "Utah SLC" (PList [PDict ∅]) = Returns (PDict ∅, 1%Q) ∧
  lookup_business (details_down [PDict ∅]) "Utah SLC" true [] =
    (Returns (failure "Utah SLC" "No good match found", []), [SearchText "Utah SLC" 5]).
Proof. split; vm_compute; reflexivity. Qed.

(** C10 as stated fails: the business name is empty, the second candidate
    has no display name, scores 1.0 and is selected instead of the first. *)
Lemma empty_business_name_later_candidate :
  let first := candidate "p1" "Acme Lighting" in
  let second := PDict {[ "id" := PStr "p2" ]} in
  extract_business_name "Utah SLC" = "" ∧
  place_name_of first = Returns "acme lighting" ∧
  place_name_of second = Returns "" ∧
  find_best_match "Utah SLC" (PList [first; second]) = Returns (second, 1%Q) ∧
  first ≠ second.
Proof.
  repeat split; try (vm_compute; reflexivity).
  intros Heq.
  apply (f_equal (λ v, match v with PDict d => d !! "displayName" | _ => None end)) in Heq.
  vm_compute in Heq. discriminate.
Qed.

(** ** The resolver *)

Lemma bind_returns {A B} (m : io A) (k : A → io B) log b log' :
  (m ≫= k) log = (Returns b, log') →
  ∃ a log1, m log = (Returns a, log1) ∧ k a log1 = (Returns b, log').
Proof.
  unfold mbind, io_bind. destruct (m log) as [[a|e] log1]; [eauto|done].
Qed.

Lemma lift_returns {A} (o : outcome A) log a log' :
  lift o log = (Returns a, log') → o = Returns a ∧ log' = log.
Proof. unfold lift. by intros [= -> ->]. Qed.

Lemma request_returns gw c log a log' :
  request gw c log = (Returns a, log') → a = default PNone (gw log c) ∧ log' = log ++ [c].
Proof. unfold request. by intros [= <- <-]. Qed.

Lemma display_text_defaults place dflt x dflt' :
  display_text place dflt = Returns x → ∃ y, display_text place dflt' = Returns y.
Proof.
  unfold display_text. destruct (get place "displayName" (PDict ∅)) as [dn|]; [|done]. simpl.
  destruct dn; try done. simpl. eauto.
Qed.

(** C6: when the search request fails or yields no candidate, the result is
    the one record with error "No match found", empty [place_id] and [name],
    no reviews, and the search request is the only call made. *)
Theorem search_failure_no_match gw query include_reviews log :
  no_candidates (gw log (SearchText query 5)) →
  lookup_business gw query include_reviews log =
    (Returns ({| BusinessInfo.query := query;
                 BusinessInfo.place_id := PStr "";
                 BusinessInfo.name := PStr "";
                 BusinessInfo.rating := PNone;
                 BusinessInfo.user_ratings_total := PNone;
                 BusinessInfo.maps_url := PStr "";
                 BusinessInfo.formatted_address := PNone;
                 BusinessInfo.match_score := None;
                 BusinessInfo.error := Some "No match found" |}, []),
     log ++ [SearchText query 5]).
Proof.
  intros Hno. unfold lookup_business, search_text, request, lift.
  unfold mbind, io_bind.
  destruct Hno as [-> | (d & -> & Hplaces)]; [done|]. simpl default.
  destruct (truthy (PDict d)) eqn:Ht; [|done].
  destruct Hplaces as [Hp | Hp]; simpl; rewrite Hp; done.
Qed.

Lemma search_failure_no_match_witness :
  lookup_business (snapshot [] PNone) "NoSuchPlace9999XYZ" true [] =
    (Returns ({| BusinessInfo.query := "NoSuchPlace9999XYZ";
                 BusinessInfo.place_id := PStr "";
                 BusinessInfo.name := PStr "";
                 BusinessInfo.rating := PNone;
                 BusinessInfo.user_ratings_total := PNone;
                 BusinessInfo.maps_url := PStr "";
                 BusinessInfo.formatted_address := PNone;
                 BusinessInfo.match_score := None;
                 BusinessInfo.error := Some "No match found" |}, []),
     [SearchText "NoSuchPlace9999XYZ" 5]).
Proof.
  apply (search_failure_no_match (snapshot [] PNone) "NoSuchPlace9999XYZ" true []).
  right. exists (search_body []). split; [reflexivity|]. right. reflexivity.
Defined.

(** C2: when search and match succeed and the detail request fails, the
    record has error "Could not retrieve details", keeps the [place_id],
    [name] and [formatted_address] of the matched candidate, and comes with
    no reviews. *)
Theorem detail_failure_keeps_match gw query include_reviews log d cands c score :
  gw log (SearchText query 5) = Some (PDict d) →
  d !! "places" = Some (PList cands) →
  find_best_match query (PList cands) = Returns (PDict c, score) →
  truthy (PDict c) = true →
  gw (log ++ [SearchText query 5])
     (GetPlaceDetails (default (PStr "") (c !! "id")) include_reviews) = None →
  ∃ name, display_text (PDict c) (PStr "Unknown") = Returns name ∧
  lookup_business gw query include_reviews log =
    (Returns ({| BusinessInfo.query := query;
                 BusinessInfo.place_id := default (PStr "") (c !! "id");
                 BusinessInfo.name := name;
                 BusinessInfo.rating := PNone;
                 BusinessInfo.user_ratings_total := PNone;
                 BusinessInfo.maps_url := PStr "";
                 BusinessInfo.formatted_address :=
                   default (PStr "") (c !! "formattedAddress");
                 BusinessInfo.match_score := None;
                 BusinessInfo.error := Some "Could not retrieve details" |}, []),
     log ++ [SearchText query 5;
             GetPlaceDetails (default (PStr "") (c !! "id")) include_reviews]).
Proof.
  intros Hsearch Hplaces Hbest Hc Hdetails.
  assert (∃ name, display_text (PDict c) (PStr "Unknown") = Returns name) as [name Hname].
  { unfold find_best_match in Hbest.
    destruct (truthy (PList cands)); [|done]. simpl in Hbest.
    destruct (best_of _ _ _ _) as [[bm s]|]; [|done]. simpl in Hbest.
    destruct (truthy bm) eqn:Hbm.
    - destruct (display_text bm (PStr "")) as [x|] eqn:Hx; [|done].
      injection Hbest as -> ->. eapply display_text_defaults, Hx.
    - injection Hbest as -> ->. congruence. }
  exists name. split; [done|].
  assert (cands ≠ []) as Hne.
  { intros ->. unfold find_best_match in Hbest. simpl in Hbest. congruence. }
  unfold lookup_business, search_text, get_place_details, request, lift.
  unfold mbind, io_bind. rewrite Hsearch. simpl default.
  rewrite (truthy_dict_lookup _ _ _ Hplaces). simpl. rewrite Hplaces. simpl.
  destruct cands as [|c0 cands]; [done|].
  rewrite Hbest, Hc, Hname. simpl. rewrite Hdetails. simpl. by rewrite <- app_assoc.
Qed.

Lemma detail_failure_keeps_match_witness :
  let c := candidate_at "p1" "Acme Lighting" "1 Main St, Salt Lake City" in
  ∃ name, display_text c (PStr "Unknown") = Returns name ∧
  lookup_business (details_down [c]) "Acme Lighting, SLC" true [] =
    (Returns ({| BusinessInfo.query := "Acme Lighting, SLC";
                 BusinessInfo.place_id := PStr "p1";
                 BusinessInfo.name := name;
                 BusinessInfo.rating := PNone;
                 BusinessInfo.user_ratings_total := PNone;
                 BusinessInfo.maps_url := PStr "";
                 BusinessInfo.formatted_address := PStr "1 Main St, Salt Lake City";
                 BusinessInfo.match_score := None;
                 BusinessInfo.error := Some "Could not retrieve details" |}, []),
     [SearchText "Acme Lighting, SLC" 5; GetPlaceDetails (PStr "p1") true]).
Proof.
  intros c.
  assert (find_best_match "Acme Lighting, SLC" (PList [c]) = Returns (c, 26 # 26)) as Hbest
    by (vm_compute; reflexivity).
  exact (detail_failure_keeps_match (details_down [c]) "Acme Lighting, SLC" true []
           (search_body [c]) [c]
           {[ "id" := PStr "p1";
              "displayName" := PDict {[ "text" := PStr "Acme Lighting" ]};
              "formattedAddress" := PStr "1 Main St, Salt Lake City" ]}
           (26 # 26) eq_refl eq_refl Hbest eq_refl eq_refl).
Defined.

(** C1 (amended): a returned record whose [error] is set has no rating, no
    rating count and an empty [maps_url]; its [formatted_address] is absent
    for "No match found" and "No good match found", and for
    "Could not retrieve details" it is the matched candidate's address (the
    empty string when the candidate has none). *)
Theorem error_record_fields gw query include_reviews log info reviews log' e :
  lookup_business gw query include_reviews log = (Returns (info, reviews), log') →
  BusinessInfo.error info = Some e →
  BusinessInfo.rating info = PNone ∧
  BusinessInfo.user_ratings_total info = PNone ∧
  BusinessInfo.maps_url info = PStr "" ∧
  ((e = "No match found" ∨ e = "No good match found") ∧
   BusinessInfo.formatted_address info = PNone
   ∨
   e = "Could not retrieve details" ∧
   ∃ response all_places best score,
     gw log (SearchText query 5) = Some response ∧
     getitem_str response "places" = Returns all_places ∧
     find_best_match query all_places = Returns (best, score) ∧
     get best "formattedAddress" (PStr "") =
       Returns (BusinessInfo.formatted_address info)).
Proof.
  intros Hrun He. unfold lookup_business in Hrun.
  apply bind_returns in Hrun as (search_response & log1 & Hsearch & Hrun).
  apply request_returns in Hsearch as [Hsearch ->].
  apply bind_returns in Hrun as (no_results & ? & Hno & Hrun).
  apply lift_returns in Hno as [Hno ->].
  destruct no_results.
  { apply lift_returns in Hrun as [[= <- <-] _]. injection He as <-. simpl. tauto. }
  apply bind_returns in Hrun as (all_places & ? & Hplaces & Hrun).
  apply lift_returns in Hplaces as [Hplaces ->].
  apply bind_returns in Hrun as ([best score] & ? & Hbest & Hrun).
  apply lift_returns in Hbest as [Hbest ->].
  destruct (negb (truthy best)).
  { apply lift_returns in Hrun as [[= <- <-] _]. injection He as <-. simpl. tauto. }
  apply bind_returns in Hrun as (place_id & ? & Hid & Hrun).
  apply lift_returns in Hid as [Hid ->].
  apply bind_returns in Hrun as (name & ? & Hname & Hrun).
  apply lift_returns in Hname as [Hname ->].
  apply bind_returns in Hrun as (formatted_address & ? & Haddr & Hrun).
  apply lift_returns in Haddr as [Haddr ->].
  apply bind_returns in Hrun as (details_response & ? & Hdetails & Hrun).
  apply request_returns in Hdetails as [Hdetails ->].
  destruct (negb (truthy details_response)).
  { apply lift_returns in Hrun as [[= <- <-] _]. injection He as <-. simpl.
    repeat split; try done. right. split; [done|].
    destruct (gw log (SearchText query 5)) as [response|]; [|by subst].
    exists response, all_places, best, score. by subst. }
  repeat (apply bind_returns in Hrun as (? & ? & Hstep & Hrun);
          apply lift_returns in Hstep as [_ ->]).
  apply lift_returns in Hrun as [[= <- <-] _]. done.
Qed.

Lemma error_record_fields_witness :
  let c := candidate_at "p1" "Acme Lighting" "1 Main St, Salt Lake City" in
  let info :=
    BusinessInfo.mk "Acme Lighting, SLC" (PStr "p1") (PStr "Acme Lighting") PNone PNone
      (PStr "") (PStr "1 Main St, Salt Lake City") None
      (Some "Could not retrieve details") in
  BusinessInfo.rating info = PNone ∧
  BusinessInfo.user_ratings_total info = PNone ∧
  BusinessInfo.maps_url info = PStr "" ∧
  (("Could not retrieve details" = "No match found" ∨
    "Could not retrieve details" = "No good match found") ∧
   BusinessInfo.formatted_address info = PNone
   ∨
   "Could not retrieve details" = "Could not retrieve details" ∧
   ∃ response all_places best score,
     details_down [c] [] (SearchText "Acme Lighting, SLC" 5) = Some response ∧
     getitem_str response "places" = Returns all_places ∧
     find_best_match "Acme Lighting, SLC" all_places = Returns (best, score) ∧
     get best "formattedAddress" (PStr "") =
       Returns (BusinessInfo.formatted_address info)).
Proof.
  intros c info.
  apply (error_record_fields (details_down [c]) "Acme Lighting, SLC" true []
           info [] [SearchText "Acme Lighting, SLC" 5; GetPlaceDetails (PStr "p1") true]
           "Could not retrieve details").
  - vm_compute. reflexivity.
  - reflexivity.
Defined.

(** C1 as stated fails: the detail request fails after a match, the record
    has its [error] set and still carries the candidate's address. *)
Lemma failed_record_carries_address :
  let c := candidate_at "p1" "Acme Lighting" "1 Main St, Salt Lake City" in
  ∃ info reviews log',
    lookup_business (details_down [c]) "Acme Lighting, SLC" true [] =
      (Returns (info, reviews), log') ∧
    BusinessInfo.error info = Some "Could not retrieve details" ∧
    BusinessInfo.formatted_address info = PStr "1 Main St, Salt Lake City".
Proof.
  intros c. eexists _, _, _. split; [vm_compute; reflexivity|]. split; reflexivity.
Qed.

(** ** Reviews *)

(** What [parse_review] does with a payload, by its shape. *)
Lemma parse_review_shape raw :
  match raw with
  | PDict d => (review_shape raw ∧ parse_review raw = Returns (normalized d)) ∨
               (¬ review_shape raw ∧ ∃ e, parse_review raw = Raises e)
  | _ => ¬ review_shape raw ∧ ∃ e, parse_review raw = Raises e
  end.
Proof.
  destruct raw as [| | | | | |d]; try (split; [intros []|by eexists]).
  unfold parse_review, normalized, review_shape. simpl.
  destruct (d !! "authorAttribution") as [[]|] eqn:Haa; simpl;
    try (right; split; [by intros [[] _]|by eexists]).
  - destruct (d !! "originalText") as [[]|] eqn:Hot; simpl;
      try (right; split; [by intros [_ []]|by eexists]).
    + left. done.
    + destruct (d !! "text") as [[]|] eqn:Ht; simpl;
        try (right; split; [by intros [_ []]|by eexists]); left; done.
  - destruct (d !! "originalText") as [[]|] eqn:Hot; simpl;
      try (right; split; [by intros [_ []]|by eexists]).
    + left. done.
    + destruct (d !! "text") as [[]|] eqn:Ht; simpl;
        try (right; split; [by intros [_ []]|by eexists]); left; done.
Qed.

(** The defaults of [normalized], field by field. *)
Lemma normalized_defaults d :
  (d !! "authorAttribution" = None → Review.author (normalized d) = PStr "Anonymous") ∧
  (d !! "rating" = None → Review.rating (normalized d) = PInt 0) ∧
  (∀ o, d !! "originalText" = Some (PDict o) →
        Review.text (normalized d) = default (PStr "") (o !! "text")) ∧
  (∀ t, d !! "originalText" = None → d !! "text" = Some (PDict t) →
        Review.text (normalized d) = default (PStr "") (t !! "text")) ∧
  (d !! "originalText" = None → d !! "text" = None →
   Review.text (normalized d) = PStr "").
Proof.
  unfold normalized; simpl. repeat split.
  - by intros ->.
  - by intros ->.
  - by intros o ->.
  - by intros t -> ->.
  - by intros -> ->.
Qed.

(** C7 (amended): review normalisation never fails.  A payload that is an
    object whose author attribution and text container are objects or absent
    is kept: a missing author gives "Anonymous", a missing rating gives 0,
    the text is that of ["originalText"], that of ["text"] when
    ["originalText"] is absent, and empty when neither is there.  Any other
    payload is skipped. *)
Theorem review_normalization (raw : pyval) (rest : list pyval) :
  (review_shape raw →
   ∃ d r, raw = PDict d ∧ r = normalized d ∧
     parse_reviews (raw :: rest) = r :: parse_reviews rest ∧
     (d !! "authorAttribution" = None → Review.author r = PStr "Anonymous") ∧
     (d !! "rating" = None → Review.rating r = PInt 0) ∧
     (∀ o, d !! "originalText" = Some (PDict o) →
           Review.text r = default (PStr "") (o !! "text")) ∧
     (∀ t, d !! "originalText" = None → d !! "text" = Some (PDict t) →
           Review.text r = default (PStr "") (t !! "text")) ∧
     (d !! "originalText" = None → d !! "text" = None → Review.text r = PStr "")) ∧
  (¬ review_shape raw → parse_reviews (raw :: rest) = parse_reviews rest).
Proof.
  pose proof (parse_review_shape raw) as Hcase. simpl parse_reviews.
  destruct raw as [| | | | | |d];
    try (destruct Hcase as [Hnot [e ->]]; split; [intros []|done]).
  destruct Hcase as [[Hs ->]|[Hnot [e ->]]]; split; try done.
  intros _. exists d, (normalized d). repeat split; try apply normalized_defaults.
Qed.

Lemma review_normalization_witness :
  let raw :=
    PDict {[ "rating" := PInt 5; "text" := PDict {[ "text" := PStr "Great place" ]} ]} in
  ∃ d, raw = PDict d ∧ parse_reviews [raw] = [normalized d] ∧
    Review.author (normalized d) = PStr "Anonymous" ∧
    Review.text (normalized d) = PStr "Great place".
Proof.
  intros raw.
  destruct (proj1 (review_normalization raw [])) as (d & r & Hd & -> & Hparse & _).
  - split; vm_compute; exact I.
  - exists d. split; [done|]. split; [done|]. injection Hd as <-.
    split; vm_compute; reflexivity.
Defined.

(** The spec's sample: an entry without either text field is kept, with
    empty text. *)
Example review_without_text :
  parse_reviews [PDict {[ "rating" := PInt 4 ]}] =
    [Review.mk (PStr "Anonymous") (PInt 4) (PStr "") (PStr "") (PStr "")].
Proof. vm_compute. reflexivity. Qed.

(** C7 as stated fails: a review whose text is a plain string is dropped. *)
Lemma review_with_plain_text_dropped :
  parse_reviews [PDict {[ "rating" := PInt 5; "originalText" := PStr "Great place" ]}] = [].
Proof. vm_compute. reflexivity. Qed.

(** ** Determinism *)

Lemma lift_independent {A} (o : outcome A) : log_independent (lift o).
Proof. done. Qed.

Lemma request_independent gw c : stable gw → log_independent (request gw c).
Proof. intros Hgw log log'. unfold request. simpl. by rewrite (Hgw log log'). Qed.

Lemma bind_independent {A B} (m : io A) (k : A → io B) :
  log_independent m → (∀ a, log_independent (k a)) → log_independent (m ≫= k).
Proof.
  intros Hm Hk log log'. unfold mbind, io_bind.
  specialize (Hm log log').
  destruct (m log) as [[a|e] l], (m log') as [[a'|e'] l']; simpl in Hm; try done.
  - injection Hm as <-. apply Hk.
  - by injection Hm as <-.
Qed.

Lemma lookup_business_independent gw query include_reviews :
  stable gw → log_independent (lookup_business gw query include_reviews).
Proof.
  intros Hgw. unfold lookup_business, search_text, get_place_details.
  apply bind_independent; [by apply request_independent|]. intros search_response.
  apply bind_independent; [apply lift_independent|]. intros [|]; [apply lift_independent|].
  apply bind_independent; [apply lift_independent|]. intros all_places.
  apply bind_independent; [apply lift_independent|]. intros [best_match similarity_score].
  destruct (negb (truthy best_match)); [apply lift_independent|].
  do 3 (apply bind_independent; [apply lift_independent|]; intros ?).
  apply bind_independent; [by apply request_independent|]. intros details_response.
  destruct (negb (truthy details_response)); [apply lift_independent|].
  do 7 (apply bind_independent; [apply lift_independent|]; intros ?).
  apply lift_independent.
Qed.

(** C9: against a provider whose answers do not change, a second call of
    [lookup_business] with the same query and flag, made after the first,
    has the same outcome: the same record and the same reviews. *)
Theorem lookup_business_deterministic gw query include_reviews log :
  stable gw →
  let first := lookup_business gw query include_reviews log in
  let second := lookup_business gw query include_reviews first.2 in
  second.1 = first.1.
Proof. intros Hgw. simpl. by apply lookup_business_independent. Qed.

Lemma lookup_business_deterministic_witness :
  let gw :=
    snapshot [candidate_at "p1" "Acme Lighting" "1 Main St, Salt Lake City"]
      (PDict {[ "rating" := PInt 4;
                "reviews" := PList [PDict {[ "rating" := PInt 5 ]}] ]}) in
  let first := lookup_business gw "Acme Lighting, SLC" true [] in
  let second := lookup_business gw "Acme Lighting, SLC" true first.2 in
  second.1 = first.1.
Proof.
  intros gw. apply (lookup_business_deterministic gw "Acme Lighting, SLC" true []).
  intros log log' c. reflexivity.
Defined.

(** The hypothesis is needed: a provider that answers only its first request
    gives two different outcomes. *)
Remark one_shot_not_repeatable :
  let gw := one_shot [candidate "p1" "Acme Lighting"] in
  let first := lookup_business gw "Acme Lighting, SLC" true [] in
  let second := lookup_business gw "Acme Lighting, SLC" true first.2 in
  ¬ stable gw ∧ second.1 ≠ first.1.
Proof.
  intros gw first second. split.
  - intros Hgw. specialize (Hgw [] [SearchText "x" 5] (SearchText "x" 5)). discriminate.
  - vm_compute. discriminate.
Qed.

(** * Further facts *)

(** ** More on the query normaliser *)

Lemma filter_agree {A} (P Q : A → Prop) `{∀ x, Decision (P x)} `{∀ x, Decision (Q x)}
    (R : A → Prop) (l : list A) :
  Forall R l → (∀ x, R x → (P x ↔ Q x)) → filter P l = filter Q l.
Proof.
  intros Hl HPQ. induction Hl as [|x l Hx Hl IH]; [done|].
  rewrite !filter_cons, IH. specialize (HPQ x Hx).
  destruct (decide (P x)), (decide (Q x)); tauto.
Qed.

Lemma extract_without_separator (query : string) :
  Str.contains " in " (Str.lower query) = false →
  Str.contains ", " (Str.lower query) = false →
  extract_business_name query =
    Str.strip (Str.join " "
      (filter (λ w, w ∉ ["city"; "ut"; "utah"; "slc"; "salt lake city"])
         (Str.words (Str.lower query)))).
Proof. intros Hin Hcomma. unfold extract_business_name. simpl List.find. by rewrite Hin, Hcomma. Qed.

(** X1: Without a separator the business name is the query's lower-cased words,
    minus "city", "ut", "utah" and "slc", joined by single spaces; the stoplist
    entry "salt lake city" removes nothing. *)
Theorem extract_business_name_stopwords (query : string) :
  ¬ occurs " in " (Str.lower query) →
  ¬ occurs ", " (Str.lower query) →
  extract_business_name query =
    Str.join " "
      (filter (λ w, w ∉ ["city"; "ut"; "utah"; "slc"]) (Str.words (Str.lower query))).
Proof.
  intros Hin Hcomma.
  rewrite extract_without_separator; [| by apply not_true_is_false; rewrite contains_spec ..].
  pose proof (words_word (Str.lower query)) as Hwords.
  rewrite (filter_agree _ (λ w, w ∉ ["city"; "ut"; "utah"; "slc"]) word _ Hwords).
  - apply strip_of_trimmed, join_words_trimmed.
    clear -Hwords. induction Hwords as [|w ws Hw Hws IH]; [constructor|].
    rewrite filter_cons. destruct (decide _); [by constructor|done].
  - intros w [_ Hw]. rewrite !not_elem_of_cons. split; [tauto|].
    intros (?&?&?&?&?). repeat split; try done.
    intros ->. unfold all_chars in Hw. simpl in Hw.
    do 4 apply Forall_cons in Hw as [_ Hw]. apply Forall_cons in Hw as [Hsp _].
    vm_compute in Hsp. discriminate.
Qed.

Lemma extract_business_name_stopwords_witness :
  extract_business_name "Utah Holiday Lighting Salt Lake City" =
    Str.join " "
      (filter (λ w, w ∉ ["city"; "ut"; "utah"; "slc"])
         (Str.words (Str.lower "Utah Holiday Lighting Salt Lake City"))) ∧
  extract_business_name "Utah Holiday Lighting Salt Lake City" = "holiday lighting salt lake".
Proof.
  split; [|reflexivity].
  apply extract_business_name_stopwords.
  - intros Hocc. apply contains_spec in Hocc. vm_compute in Hocc. discriminate.
  - intros Hocc. apply contains_spec in Hocc. vm_compute in Hocc. discriminate.
Defined.


(** ** The query file *)




(** ** Review text in the reports *)

Lemma take_length (n : nat) (s : string) :
  String.length (Text.take n s) = n `min` String.length s.
Proof.
  revert s. induction n as [|n IH]; intros [|c s]; simpl; try done. by rewrite IH.
Qed.

Lemma take_prefix (n : nat) (s : string) : ∃ rest, s = Text.take n s +:+ rest.
Proof.
  revert s. induction n as [|n IH]; intros [|c s]; simpl; try by eexists.
  destruct (IH s) as [rest Hrest]. exists rest. by rewrite append_cons, <- Hrest.
Qed.

Lemma append_length (s1 s2 : string) :
  String.length (s1 +:+ s2) = String.length s1 + String.length s2.
Proof. induction s1 as [|c s1 IH]; [done|]. rewrite append_cons. simpl. by rewrite IH. Qed.

(** X4: The excerpt of a review text is the text itself up to 500 characters,
    and its first 500 characters followed by "..." beyond: never more than 503
    characters. *)
Theorem review_excerpt_bound (text : string) :
  String.length (review_excerpt text) ≤ 503 ∧
  (String.length text ≤ 500 → review_excerpt text = text) ∧
  (500 < String.length text →
   ∃ kept rest, text = kept +:+ rest ∧ String.length kept = 500 ∧
                review_excerpt text = kept +:+ "...").
Proof.
  unfold review_excerpt. destruct (Nat.ltb_spec 500 (String.length text)) as [Hlong|Hshort].
  - split; [|split; [lia|]].
    + rewrite append_length, take_length. change (String.length "...") with 3. lia.
    + intros _. destruct (take_prefix 500 text) as [rest Hrest].
      exists (Text.take 500 text), rest. split; [done|]. split; [|done].
      rewrite take_length. lia.
  - split; [lia|]. split; [done|lia].
Qed.

Lemma review_excerpt_bound_witness : review_excerpt "Great place" = "Great place".
Proof.
  apply (proj1 (proj2 (review_excerpt_bound "Great place"))). simpl. lia.
Defined.

Lemma replace_pipe_cons (c : ascii) (s : string) :
  Text.replace "|" "\|" (String c s) =
    if Ascii.eqb c "|" then String "\" (String "|" (Text.replace "|" "\|" s))
    else String c (Text.replace "|" "\|" s).
Proof.
  unfold Text.replace.
  change (Text.replace_from "|" "\|" 0 (String c s)) with
    (if String.prefix "|" (String c s)
     then "\|" +:+ Text.replace_from "|" "\|" 0 s
     else String c (Text.replace_from "|" "\|" 0 s)).
  assert (String.prefix "|" (String c s) = Ascii.eqb c "|") as ->; [|done].
  destruct (Ascii.eqb_spec c "|") as [->|Hne].
  - apply prefix_spec. by exists s.
  - apply not_true_is_false. rewrite prefix_spec. intros [post Hp].
    rewrite append_cons in Hp. injection Hp as -> _. done.
Qed.

(** X5: In the quoted review text of the Markdown report every ["|"] comes right
    after a backslash. *)
Theorem review_quote_pipes_escaped (text l r : string) :
  review_quote text = l +:+ "|" +:+ r → ∃ l', l = l' +:+ "\".
Proof.
  unfold review_quote. generalize (review_excerpt text). intros s.
  revert l. induction s as [|c s IH]; intros l Heq.
  - destruct l; done.
  - rewrite replace_pipe_cons in Heq. destruct (Ascii.eqb_spec c "|") as [->|Hc].
    + destruct l as [|a l]; [done|]. rewrite append_cons in Heq. injection Heq as <- Heq.
      destruct l as [|a l]; [by exists ""|].
      rewrite append_cons in Heq. injection Heq as <- Heq.
      destruct (IH l Heq) as [l' ->]. by exists (String "\" (String "|" l')).
    + destruct l as [|a l].
      * rewrite append_empty in Heq. by injection Heq.
      * rewrite append_cons in Heq. injection Heq as <- Heq.
        destruct (IH l Heq) as [l' ->]. by exists (String c l').
Qed.

Lemma review_quote_pipes_escaped_witness : ∃ l', "5 stars \" = l' +:+ "\".
Proof.
  apply (review_quote_pipes_escaped "5 stars | would return" "5 stars \" " would return").
  reflexivity.
Defined.

(** ** The matcher on sequences without a common element *)

Module DifflibDisjoint.
Import Difflib DifflibInv DifflibFacts.
Local Open Scope Z_scope.

Section chain_b.
Context {A : Type} `{Countable A}.

Lemma chain_b_fold_absent (x : A) (l : list (nat * A)) (b2j : gmap A (list Z)) :
  b2j !! x = None →
  (∀ i e, (i, e) ∈ l → e ≠ x) →
  foldl (λ (b2j : gmap A (list Z)) '(i, elt),
           <[elt := default [] (b2j !! elt) ++ [Z.of_nat i]]> b2j) b2j l !! x = None.
Proof.
  revert b2j. induction l as [|[i e] l IH]; intros b2j Hx Hl; [done|]. simpl.
  apply IH.
  - rewrite lookup_insert_ne; [done|]. apply (Hl i e). left.
  - intros i' e' Hin. apply (Hl i' e'). by right.
Qed.

(** [b2j] has no entry for an element that is not in [b]. *)
Lemma chain_b_absent (x : A) (b : list A) : x ∉ b → chain_b b !! x = None.
Proof.
  intros Hx. unfold chain_b.
  assert (foldl (λ (b2j : gmap A (list Z)) '(i, elt),
             <[elt := default [] (b2j !! elt) ++ [Z.of_nat i]]> b2j) ∅ (imap pair b) !! x = None)
    as Hfold.
  { apply chain_b_fold_absent; [done|]. intros i e Hin ->.
    apply elem_of_lookup_imap in Hin as (i' & y & [= -> ->] & Hy).
    apply Hx. by eapply list_elem_of_lookup_2. }
  case_bool_decide; [|done]. apply map_lookup_filter_None. by left.
Qed.

End chain_b.

Section disjoint.
Context {A : Type} `{Countable A}.
Variable m : SequenceMatcher A.
Hypothesis Hb2j : ∀ x, x ∈ sm_a m → sm_b2j m !! x = None.
Hypothesis Hab : ∀ x, x ∈ sm_a m → x ∉ sm_b m.

Lemma item_elem (l : list A) (i : Z) (x : A) : item l i = Some x → x ∈ l.
Proof. unfold item. case_bool_decide; [|done]. apply list_elem_of_lookup_2. Qed.

Lemma scan_rows_nothing alo ahi blo bhi best :
  (scan_rows m alo ahi blo bhi best).2 = best.
Proof.
  unfold scan_rows. generalize (∅ : gmap Z Z). generalize (seqZ alo (ahi - alo)).
  intros l. induction l as [|i l IH]; intros j2len; [done|]. simpl.
  destruct (item (sm_a m) i) as [x|] eqn:Hi; simpl.
  - rewrite (Hb2j x (item_elem _ _ _ Hi)). simpl. apply IH.
  - apply IH.
Qed.

Lemma grow_left_nothing alo blo junk rounds best :
  grow_left m alo blo junk rounds best = best.
Proof.
  destruct rounds as [|r]; [done|]. destruct best as [[besti bestj] bestsize]. simpl.
  destruct (item (sm_b m) (bestj - 1)) as [y|] eqn:Hy;
    [|by destruct (bool_decide _), (bool_decide _)].
  destruct (bool_decide (item (sm_a m) _ = Some y)) eqn:Ha.
  - apply bool_decide_eq_true in Ha. exfalso. apply (Hab y); by eapply item_elem.
  - by rewrite !andb_false_r.
Qed.

Lemma grow_right_nothing ahi bhi junk rounds best :
  grow_right m ahi bhi junk rounds best = best.
Proof.
  destruct rounds as [|r]; [done|]. destruct best as [[besti bestj] bestsize]. simpl.
  destruct (item (sm_b m) (bestj + bestsize)) as [y|] eqn:Hy;
    [|by destruct (bool_decide _), (bool_decide _)].
  destruct (bool_decide (item (sm_a m) _ = Some y)) eqn:Ha.
  - apply bool_decide_eq_true in Ha. exfalso. apply (Hab y); by eapply item_elem.
  - by rewrite !andb_false_r.
Qed.

Lemma find_longest_match_nothing alo ahi blo bhi :
  find_longest_match m alo ahi blo bhi = (alo, blo, 0).
Proof.
  unfold find_longest_match.
  by rewrite !grow_right_nothing, !grow_left_nothing, scan_rows_nothing.
Qed.

(** Sequences without a common element have no matching block. *)
Lemma ratio_nothing :
  ratio m = calculate_ratio 0 (Z.of_nat (length (sm_a m)) + Z.of_nat (length (sm_b m))).
Proof.
  unfold ratio, get_matching_blocks, get_matching_blocks_within, queue_rounds.
  replace (2 * length (sm_a m) + 1)%nat with (S (2 * length (sm_a m))) by lia.
  simpl match_regions. rewrite find_longest_match_nothing.
  rewrite (bool_decide_eq_false_2 (0 ≠ 0)) by (by intros Hn; apply Hn).
  by destruct (length (sm_a m) + (length (sm_a m) + 0))%nat.
Qed.

End disjoint.
End DifflibDisjoint.

(** ** More on the scorer *)

Lemma chars_of_length (s : string) : length (chars_of s) = String.length s.
Proof. induction s; simpl; congruence. Qed.

Lemma contains_chars (sub s : string) c :
  Str.contains sub s = true → c ∈ chars_of sub → c ∈ chars_of s.
Proof.
  intros Hc Hin. apply contains_spec in Hc as (l & r & ->).
  rewrite !chars_of_app. apply elem_of_app. right. apply elem_of_app. by left.
Qed.

Lemma contains_disjoint (business_name place_name : string) :
  business_name ≠ "" →
  share_no_char business_name place_name →
  Str.contains business_name place_name = false.
Proof.
  intros Hne Hdis. apply not_true_is_false. intros Hc.
  destruct business_name as [|c bn]; [done|].
  apply (Hdis c); [left|]. eapply contains_chars; [done|left].
Qed.

Lemma str_ratio_disjoint (business_name place_name : string) :
  business_name ≠ "" →
  share_no_char business_name place_name →
  (Difflib.str_ratio business_name place_name == 0)%Q.
Proof.
  intros Hne Hdis. unfold Difflib.str_ratio. rewrite DifflibDisjoint.ratio_nothing.
  - simpl. fold (chars_of business_name) (chars_of place_name). rewrite !chars_of_length.
    unfold Difflib.calculate_ratio. case_bool_decide as Hl.
    + unfold Qdiv. change (2 * inject_Z 0)%Q with 0%Q. apply Qmult_0_l.
    + destruct business_name; [done|]. simpl in Hl. lia.
  - intros x Hx. simpl in *. apply DifflibDisjoint.chain_b_absent. by apply Hdis.
  - intros x Hx. simpl in *. by apply Hdis.
Qed.

Lemma similarity_of_range (business_name place_name : string) :
  (0 <= similarity_of business_name place_name <= 1)%Q.
Proof.
  pose proof (DifflibFacts.str_ratio_bounds business_name place_name) as [H0 H1].
  unfold similarity_of, max.
  destruct (Str.contains business_name place_name); [|done].
  destruct (Qlt_le_dec _ _); [|done]. split; by vm_compute.
Qed.

(** X6: A candidate name that has no character in common with a non-empty
    business name scores 0. *)
Theorem unrelated_name_scores_zero (business_name place_name : string) :
  business_name ≠ "" →
  share_no_char business_name place_name →
  (similarity_of business_name place_name == 0)%Q.
Proof.
  intros Hne Hdis. unfold similarity_of.
  rewrite (contains_disjoint _ _ Hne Hdis).
  by apply str_ratio_disjoint.
Qed.

Lemma unrelated_name_scores_zero_witness : (similarity_of "abc" "xyz" == 0)%Q.
Proof.
  apply (unrelated_name_scores_zero "abc" "xyz").
  - discriminate.
  - intros c Hc Hx. unfold chars_of in *. simpl in *.
    repeat (apply elem_of_cons in Hc as [->|Hc];
            [by repeat (apply elem_of_cons in Hx as [Hx|Hx]; [discriminate Hx|]);
                apply elem_of_nil in Hx|]).
    by apply elem_of_nil in Hc.
Defined.

(** ** More on the match step *)

(** What [place_name_of] does with a search result, by its shape. *)
Lemma place_name_of_shape c :
  (candidate_shape c ∧ ∃ n, place_name_of c = Returns n) ∨
  (¬ candidate_shape c ∧ place_name_of c = Raises AttributeError).
Proof.
  destruct c as [| | | | | |d]; try (right; split; [intros []|reflexivity]).
  unfold place_name_of, display_text, candidate_shape. simpl.
  destruct (d !! "displayName") as [dn|]; simpl.
  - destruct dn as [| | | | | |dn]; simpl; try (right; split; [intros []|reflexivity]).
    destruct (dn !! "text") as [t|]; simpl.
    + destruct t; simpl; try (right; split; [intros []|reflexivity]).
      left. split; [exact I|]. eexists. reflexivity.
    + left. split; [exact I|]. eexists. reflexivity.
  - left. split; [exact I|]. eexists. reflexivity.
Qed.

Lemma named_shape cands : Forall candidate_shape cands → ∃ names, named cands names.
Proof.
  induction 1 as [|c cands Hc Hcands [names IH]]; [exists []; constructor|].
  destruct (place_name_of_shape c) as [[_ [n Hn]]|[Hnot _]]; [|done].
  exists (n :: names). by constructor.
Qed.

Lemma best_of_returns_named bn cands best0 score0 r :
  best_of bn cands best0 score0 = Returns r → ∃ names, named cands names.
Proof.
  revert best0 score0. induction cands as [|c cands IH]; intros best0 score0 Hr.
  { exists []. constructor. }
  simpl in Hr. destruct (place_name_of c) as [n|] eqn:Hn; [|done]. simpl in Hr.
  destruct (Qlt_le_dec _ _); apply IH in Hr as [names Hnames];
    exists (n :: names); by constructor.
Qed.

Lemma best_of_unreadable bn cands best0 score0 :
  Exists (λ c, ¬ candidate_shape c) cands →
  best_of bn cands best0 score0 = Raises AttributeError.
Proof.
  revert best0 score0. induction cands as [|c cands IH]; intros best0 score0 Hex.
  { by apply Exists_nil in Hex. }
  simpl. destruct (place_name_of_shape c) as [[Hc [n ->]]|[Hnot ->]]; [|done]. simpl.
  apply Exists_cons in Hex as [Hex|Hex]; [done|].
  destruct (Qlt_le_dec _ _); by apply IH.
Qed.

(** X7: [find_best_match] returns for a list of search results exactly when
    every one of them has a readable display name; a single result that is not
    an object, or whose ["displayName"] is not an object, or whose ["text"] is
    not a [str], makes it raise [AttributeError], whatever the other results
    are. *)
Theorem find_best_match_unreadable query cands :
  (Forall candidate_shape cands →
   ∃ best score, find_best_match query (PList cands) = Returns (best, score)) ∧
  (Exists (λ c, ¬ candidate_shape c) cands →
   find_best_match query (PList cands) = Raises AttributeError).
Proof.
  split.
  - intros Hall. destruct cands as [|c cands]; [by exists PNone, 0%Q|].
    destruct (named_shape _ Hall) as [names Hnamed].
    destruct (find_best_match_spec query (c :: cands) names Hnamed ltac:(done))
      as (best & score & Hr & _). eauto.
  - intros Hex. unfold find_best_match.
    assert (truthy (PList cands) = true) as ->.
    { destruct cands; [by apply Exists_nil in Hex|done]. }
    simpl. by rewrite best_of_unreadable.
Qed.

Lemma find_best_match_unreadable_witness :
  find_best_match "Acme Lighting, SLC"
    (PList [candidate "p1" "Acme Lighting";
            PDict {[ "id" := PStr "p2"; "displayName" := PStr "Acme Lighting Co" ]}]) =
    Raises AttributeError.
Proof.
  apply (proj2 (find_best_match_unreadable "Acme Lighting, SLC" _)).
  apply Exists_cons_tl, Exists_cons_hd. vm_compute. tauto.
Defined.

(** What a returning [find_best_match] returns, for any argument. *)
Lemma find_best_match_result query search_results best score :
  find_best_match query search_results = Returns (best, score) →
  (best = PNone ∧ score = 0%Q) ∨
  ((0 < score)%Q ∧
   ∃ cands names i, search_results = PList cands ∧ named cands names ∧
     first_maximum (extract_business_name query) cands names i best score).
Proof.
  unfold find_best_match. intros Hr.
  destruct (truthy search_results) eqn:Ht; simpl in Hr; [|left; by injection Hr as <- <-].
  destruct (iter search_results) as [places|] eqn:Hiter; [|done]. simpl in Hr.
  destruct (best_of _ places PNone 0) as [[b s]|] eqn:Hbest; [|done]. simpl in Hr.
  assert (b = best ∧ s = score) as [-> ->].
  { destruct (truthy b); [destruct (display_text b (PStr "")); [|done]|];
      simpl in Hr; by injection Hr. }
  clear Hr. destruct (best_of_returns_named _ _ _ _ _ Hbest) as [names Hnamed].
  destruct (best_of_spec (extract_business_name query) places names PNone 0 Hnamed)
    as (b & s & Hbest' & Hcase).
  rewrite Hbest in Hbest'. injection Hbest' as <- <-.
  destruct Hcase as [(-> & -> & _) | (Hlt & i & Hmax)]; [by left|]. right.
  split; [done|]. exists places, names, i. split; [|done].
  destruct Hmax as (n & Hi & _).
  destruct search_results; simpl in Hiter; try done.
  - injection Hiter as <-. apply list_lookup_fmap_Some in Hi as (k & -> & Hk).
    assert (PStr k ∈ PStr <$> Str.chars s) as Hin
      by (eapply list_elem_of_lookup_2; by rewrite list_lookup_fmap, Hk).
    exfalso. clear -Hnamed Hin. induction Hnamed as [|c n' cs ns Hc _ IH]; [by apply elem_of_nil in Hin|].
    apply elem_of_cons in Hin as [<-|Hin]; [done|by apply IH].
  - by injection Hiter as <-.
  - injection Hiter as <-. apply list_lookup_fmap_Some in Hi as (k & -> & Hk).
    exfalso.
    assert (PStr k ∈ PStr <$> (map_to_list d).*1) as Hin
      by (eapply list_elem_of_lookup_2; by rewrite list_lookup_fmap, Hk).
    clear -Hnamed Hin. induction Hnamed as [|c n' cs ns Hc _ IH]; [by apply elem_of_nil in Hin|].
    apply elem_of_cons in Hin as [<-|Hin]; [done|by apply IH].
Qed.

(** X8: Whatever [find_best_match] is given, what it returns is either [(None,
    0.0)], or one of the listed search results together with its own score,
    which is above 0 and at most 1. *)
Theorem find_best_match_returns query search_results best score :
  find_best_match query search_results = Returns (best, score) →
  (0 <= score <= 1)%Q ∧
  (best = PNone → score = 0%Q) ∧
  (best ≠ PNone →
   (0 < score)%Q ∧
   ∃ cands n, search_results = PList cands ∧ best ∈ cands ∧
     place_name_of best = Returns n ∧
     score = similarity_of (extract_business_name query) n).
Proof.
  intros Hr.
  destruct (find_best_match_result _ _ _ _ Hr)
    as [[-> ->] | (Hlt & cands & names & i & -> & Hnamed & n & Hi & Hn & -> & _)].
  - repeat split; try done.
  - destruct (Forall2_lookup_l _ _ _ _ _ Hnamed Hi) as (n' & Hn' & Hpn).
    assert (n' = n) as -> by congruence.
    split; [apply similarity_of_range|]. split.
    + intros ->. done.
    + intros _. split; [done|]. exists cands, n. repeat split; try done.
      by eapply list_elem_of_lookup_2.
Qed.

Lemma find_best_match_returns_witness :
  let best := candidate "p1" "Acme Lighting" in
  (0 <= 26 # 36 <= 1)%Q ∧
  (best = PNone → (26 # 36) = 0%Q) ∧
  (best ≠ PNone →
   (0 < 26 # 36)%Q ∧
   ∃ cands n,
     PList [candidate "p1" "Acme Lighting"; candidate "p2" "Acme Lighting Co of Utah"] =
       PList cands ∧
     best ∈ cands ∧ place_name_of best = Returns n ∧
     (26 # 36) = similarity_of (extract_business_name "Acme Lighting Salt Lake City") n).
Proof.
  intros best.
  apply (find_best_match_returns "Acme Lighting Salt Lake City"
           (PList [candidate "p1" "Acme Lighting"; candidate "p2" "Acme Lighting Co of Utah"])).
  vm_compute. reflexivity.
Defined.

(** X9: With a non-empty business name, the search result that [find_best_match]
    returns has a name with at least one character of the business name. *)
Theorem best_match_shares_character query search_results best score :
  extract_business_name query ≠ "" →
  find_best_match query search_results = Returns (best, score) →
  best ≠ PNone →
  ∃ n, place_name_of best = Returns n ∧
       ¬ share_no_char (extract_business_name query) n.
Proof.
  intros Hne Hr Hbest.
  destruct (find_best_match_result _ _ _ _ Hr)
    as [[-> ->] | (Hlt & cands & names & i & -> & Hnamed & n & Hi & Hn & -> & _)]; [done|].
  destruct (Forall2_lookup_l _ _ _ _ _ Hnamed Hi) as (n' & Hn' & Hpn).
  assert (n' = n) as -> by congruence.
  exists n. split; [done|]. intros Hdis.
  unfold similarity_of in Hlt. rewrite (contains_disjoint _ _ Hne Hdis) in Hlt.
  pose proof (str_ratio_disjoint _ _ Hne Hdis) as Hz.
  rewrite Hz in Hlt. by apply Qlt_irrefl in Hlt.
Qed.

Lemma best_match_shares_character_witness :
  ∃ n, place_name_of (candidate "p1" "Acme Lighting") = Returns n ∧
       ¬ share_no_char (extract_business_name "Acme Lighting Salt Lake City") n.
Proof.
  apply (best_match_shares_character "Acme Lighting Salt Lake City"
           (PList [candidate "p1" "Acme Lighting"; candidate "p2" "Acme Lighting Co of Utah"])
           (candidate "p1" "Acme Lighting") (26 # 36)).
  - discriminate.
  - vm_compute. reflexivity.
  - discriminate.
Defined.

(** ** More on the resolver *)

(** X10: One call of [lookup_business] makes the search request and then at most
    one detail request, with the caller's [include_reviews]; this holds also
    when it raises. *)
Theorem lookup_business_calls gw query include_reviews log :
  let log' := (lookup_business gw query include_reviews log).2 in
  log' = log ++ [SearchText query 5] ∨
  ∃ place_id,
    log' = log ++ [SearchText query 5; GetPlaceDetails place_id include_reviews].
Proof.
  unfold lookup_business, search_text, get_place_details, request, lift.
  unfold mbind, io_bind. simpl.
  repeat (match goal with
          | |- context [match ?x with _ => _ end] => destruct x
          end; simpl);
    try (by left); right; eexists; by rewrite <- app_assoc.
Qed.

(** X11: A returned record carries the query; either it has no error, a match
    score above 0 and at most 1 and the [place_id] that the detail request was
    made for, or it has one of the three error texts, no match score and no
    reviews. *)
Theorem lookup_business_record gw query include_reviews log info reviews log' :
  lookup_business gw query include_reviews log = (Returns (info, reviews), log') →
  BusinessInfo.query info = query ∧
  ((BusinessInfo.error info = None ∧
    (∃ score, BusinessInfo.match_score info = Some score ∧ (0 < score <= 1)%Q) ∧
    log' = log ++ [SearchText query 5;
                   GetPlaceDetails (BusinessInfo.place_id info) include_reviews])
   ∨
   ((BusinessInfo.error info = Some "No match found" ∨
     BusinessInfo.error info = Some "No good match found" ∨
     BusinessInfo.error info = Some "Could not retrieve details") ∧
    BusinessInfo.match_score info = None ∧ reviews = [])).
Proof.
  intros Hrun. unfold lookup_business in Hrun.
  apply bind_returns in Hrun as (search_response & log1 & Hsearch & Hrun).
  apply request_returns in Hsearch as [Hsearch ->].
  apply bind_returns in Hrun as (no_results & ? & Hno & Hrun).
  apply lift_returns in Hno as [Hno ->].
  destruct no_results.
  { apply lift_returns in Hrun as [[= <- <-] _]. simpl. tauto. }
  apply bind_returns in Hrun as (all_places & ? & Hplaces & Hrun).
  apply lift_returns in Hplaces as [Hplaces ->].
  apply bind_returns in Hrun as ([best score] & ? & Hbest & Hrun).
  apply lift_returns in Hbest as [Hbest ->].
  destruct (truthy best) eqn:Htruthy; simpl in Hrun.
  2: { apply lift_returns in Hrun as [[= <- <-] _]. simpl. tauto. }
  apply bind_returns in Hrun as (place_id & ? & Hid & Hrun).
  apply lift_returns in Hid as [Hid ->].
  apply bind_returns in Hrun as (name & ? & Hname & Hrun).
  apply lift_returns in Hname as [Hname ->].
  apply bind_returns in Hrun as (formatted_address & ? & Haddr & Hrun).
  apply lift_returns in Haddr as [Haddr ->].
  apply bind_returns in Hrun as (details_response & ? & Hdetails & Hrun).
  apply request_returns in Hdetails as [Hdetails ->].
  destruct (negb (truthy details_response)).
  { apply lift_returns in Hrun as [[= <- <-] _]. simpl. tauto. }
  repeat (apply bind_returns in Hrun as (? & ? & Hstep & Hrun);
          apply lift_returns in Hstep as [_ ->]).
  apply lift_returns in Hrun as [[= <- <-] ->]. simpl. split; [done|]. left.
  split; [done|]. split; [|by rewrite <- app_assoc].
  exists score. split; [done|].
  destruct (find_best_match_result _ _ _ _ Hbest)
    as [[-> ->] | (Hlt & cands & names & i & -> & Hnamed & n & Hi & Hn & -> & _)]; [done|].
  split; [done|]. apply similarity_of_range.
Qed.

Lemma lookup_business_record_witness :
  let info := failure "NoSuchPlace9999XYZ" "No match found" in
  BusinessInfo.query info = "NoSuchPlace9999XYZ" ∧
  ((BusinessInfo.error info = None ∧
    (∃ score, BusinessInfo.match_score info = Some score ∧ (0 < score <= 1)%Q) ∧
    [SearchText "NoSuchPlace9999XYZ" 5] =
      [] ++ [SearchText "NoSuchPlace9999XYZ" 5;
             GetPlaceDetails (BusinessInfo.place_id info) true])
   ∨
   ((BusinessInfo.error info = Some "No match found" ∨
     BusinessInfo.error info = Some "No good match found" ∨
     BusinessInfo.error info = Some "Could not retrieve details") ∧
    BusinessInfo.match_score info = None ∧ ([] : list Review.t) = [])).
Proof.
  intros info.
  apply (lookup_business_record (snapshot [] PNone) "NoSuchPlace9999XYZ" true []
           info [] [SearchText "NoSuchPlace9999XYZ" 5]).
  reflexivity.
Defined.

(** X12: When reviews are not requested none are returned, whatever the provider
    sends. *)
Theorem no_reviews_unless_requested gw query log info reviews log' :
  lookup_business gw query false log = (Returns (info, reviews), log') →
  reviews = [].
Proof.
  intros Hrun. unfold lookup_business in Hrun.
  apply bind_returns in Hrun as (search_response & log1 & Hsearch & Hrun).
  apply bind_returns in Hrun as (no_results & ? & Hno & Hrun).
  destruct no_results.
  { by apply lift_returns in Hrun as [[= <- <-] _]. }
  apply bind_returns in Hrun as (all_places & ? & Hplaces & Hrun).
  apply bind_returns in Hrun as ([best score] & ? & Hbest & Hrun).
  destruct (negb (truthy best)).
  { by apply lift_returns in Hrun as [[= <- <-] _]. }
  do 3 apply bind_returns in Hrun as (? & ? & _ & Hrun).
  apply bind_returns in Hrun as (details_response & ? & _ & Hrun).
  destruct (negb (truthy details_response)).
  { by apply lift_returns in Hrun as [[= <- <-] _]. }
  do 5 apply bind_returns in Hrun as (? & ? & _ & Hrun).
  apply bind_returns in Hrun as (has_reviews & ? & Hhas & Hrun).
  apply lift_returns in Hhas as [[= <-] ->].
  apply bind_returns in Hrun as (rs & ? & Hrs & Hrun).
  apply lift_returns in Hrs as [[= <-] ->].
  by apply lift_returns in Hrun as [[= <- <-] _].
Qed.

Lemma no_reviews_unless_requested_witness :
  let gw :=
    snapshot [candidate "p1" "Acme Lighting"]
      (PDict {[ "rating" := PInt 4;
                "reviews" := PList [PDict {[ "rating" := PInt 5 ]}] ]}) in
  ∃ info log',
    lookup_business gw "Acme Lighting, SLC" false [] = (Returns (info, []), log') ∧
    (lookup_business gw "Acme Lighting, SLC" true []).1 =
      Returns (info, [Review.mk (PStr "Anonymous") (PInt 5) (PStr "") (PStr "") (PStr "")]).
Proof.
  intros gw.
  destruct (lookup_business gw "Acme Lighting, SLC" false []) as [[[info reviews]|e] log'] eqn:Hrun;
    [|by vm_compute in Hrun].
  pose proof (no_reviews_unless_requested _ _ _ _ _ _ Hrun) as ->.
  exists info, log'. split; [done|].
  vm_compute in Hrun. injection Hrun as <- _. vm_compute. reflexivity.
Defined.

(** A selected search result comes from a non-empty list and has a readable
    display name. *)
Lemma matched_candidate query cands c score :
  find_best_match query (PList cands) = Returns (PDict c, score) →
  truthy (PDict c) = true →
  cands ≠ [] ∧ ∃ name, display_text (PDict c) (PStr "Unknown") = Returns name.
Proof.
  intros Hbest Hc. split.
  { intros ->. unfold find_best_match in Hbest. simpl in Hbest. congruence. }
  unfold find_best_match in Hbest.
  destruct (truthy (PList cands)); [|done]. simpl in Hbest.
  destruct (best_of _ _ _ _) as [[bm s]|]; [|done]. simpl in Hbest.
  destruct (truthy bm) eqn:Hbm.
  - destruct (display_text bm (PStr "")) as [x|] eqn:Hx; [|done].
    injection Hbest as -> ->. eapply display_text_defaults, Hx.
  - injection Hbest as -> ->. congruence.
Qed.

(** X13: When search, match and detail fetch succeed, the record has no error
    and carries the match score; its [place_id] is the matched search result's,
    and every other field is the detail body's, with the search result's name
    and address (or "Unknown" and "") standing in for a missing one. The reviews
    are those of the detail body when they were requested. *)
Theorem lookup_business_success gw query include_reviews log d cands c score details :
  gw log (SearchText query 5) = Some (PDict d) →
  d !! "places" = Some (PList cands) →
  find_best_match query (PList cands) = Returns (PDict c, score) →
  truthy (PDict c) = true →
  gw (log ++ [SearchText query 5])
     (GetPlaceDetails (default (PStr "") (c !! "id")) include_reviews) =
    Some (PDict details) →
  truthy (PDict details) = true →
  object_or_absent (details !! "displayName") →
  (include_reviews = true →
   details !! "reviews" = None ∨ ∃ raw, details !! "reviews" = Some (PList raw)) →
  ∃ name, display_text (PDict c) (PStr "Unknown") = Returns name ∧
  lookup_business gw query include_reviews log =
    (Returns
       ({| BusinessInfo.query := query;
           BusinessInfo.place_id := default (PStr "") (c !! "id");
           BusinessInfo.name := field (details !! "displayName") "text" name;
           BusinessInfo.rating := default PNone (details !! "rating");
           BusinessInfo.user_ratings_total := default PNone (details !! "userRatingCount");
           BusinessInfo.maps_url := default (PStr "") (details !! "googleMapsUri");
           BusinessInfo.formatted_address :=
             default (default (PStr "") (c !! "formattedAddress"))
               (details !! "formattedAddress");
           BusinessInfo.match_score := Some score;
           BusinessInfo.error := None |},
        if include_reviews then
          match details !! "reviews" with
          | Some (PList raw) => parse_reviews raw
          | _ => []
          end
        else []),
     log ++ [SearchText query 5;
             GetPlaceDetails (default (PStr "") (c !! "id")) include_reviews]).
Proof.
  intros Hsearch Hplaces Hbest Hc Hdetails Hd Hname' Hreviews.
  destruct (matched_candidate _ _ _ _ Hbest Hc) as [Hne [name Hname]].
  exists name. split; [done|].
  unfold lookup_business, search_text, get_place_details, request, lift.
  unfold mbind, io_bind. rewrite Hsearch. simpl default.
  rewrite (truthy_dict_lookup _ _ _ Hplaces). simpl. rewrite Hplaces. simpl.
  destruct cands as [|c0 cands]; [done|].
  rewrite Hbest, Hc, Hname. simpl. rewrite Hdetails.
  change (default PNone (Some ?v)) with v. rewrite Hd. simpl.
  unfold display_text. simpl.
  assert (get (default (PDict ∅) (details !! "displayName")) "text" name =
          Returns (field (details !! "displayName") "text" name)) as ->.
  { destruct (details !! "displayName") as [[]|]; done. }
  simpl. rewrite <- app_assoc. simpl.
  destruct include_reviews; [|done].
  destruct (Hreviews eq_refl) as [Hr | [raw Hr]]; rewrite Hr; done.
Qed.

Lemma lookup_business_success_witness :
  let c := candidate_at "p1" "Acme Lighting" "1 Main St, Salt Lake City" in
  let gw :=
    snapshot [c]
      (PDict {[ "id" := PStr "other";
                "displayName" := PDict {[ "text" := PStr "ACME Lighting LLC" ]};
                "rating" := PInt 4;
                "reviews" := PList [PDict {[ "rating" := PInt 5 ]}; PStr "spam"] ]}) in
  ∃ name, display_text c (PStr "Unknown") = Returns name ∧
  lookup_business gw "Acme Lighting, SLC" true [] =
    (Returns
       ({| BusinessInfo.query := "Acme Lighting, SLC";
           BusinessInfo.place_id := PStr "p1";
           BusinessInfo.name := PStr "ACME Lighting LLC";
           BusinessInfo.rating := PInt 4;
           BusinessInfo.user_ratings_total := PNone;
           BusinessInfo.maps_url := PStr "";
           BusinessInfo.formatted_address := PStr "1 Main St, Salt Lake City";
           BusinessInfo.match_score := Some (26 # 26);
           BusinessInfo.error := None |},
        [Review.mk (PStr "Anonymous") (PInt 5) (PStr "") (PStr "") (PStr "")]),
     [SearchText "Acme Lighting, SLC" 5; GetPlaceDetails (PStr "p1") true]).
Proof.
  intros c gw.
  assert (find_best_match "Acme Lighting, SLC" (PList [c]) = Returns (c, 26 # 26)) as Hbest
    by (vm_compute; reflexivity).
  destruct (lookup_business_success gw "Acme Lighting, SLC" true []
             (search_body [c]) [c]
             {[ "id" := PStr "p1";
                "displayName" := PDict {[ "text" := PStr "Acme Lighting" ]};
                "formattedAddress" := PStr "1 Main St, Salt Lake City" ]}
             (26 # 26)
             {[ "id" := PStr "other";
                "displayName" := PDict {[ "text" := PStr "ACME Lighting LLC" ]};
                "rating" := PInt 4;
                "reviews" := PList [PDict {[ "rating" := PInt 5 ]}; PStr "spam"] ]}
             eq_refl eq_refl Hbest eq_refl eq_refl eq_refl)
    as (name & Hname & Hrun).
  - vm_compute. exact I.
  - intros _. right. eexists. vm_compute. reflexivity.
  - exists name. split; [done|]. rewrite Hrun. vm_compute. reflexivity.
Defined.

(** X14: A detail body that is not an object (and not empty) makes
    [lookup_business] raise [AttributeError] after both requests. *)
Theorem details_not_object_raises gw query include_reviews log d cands c score details :
  gw log (SearchText query 5) = Some (PDict d) →
  d !! "places" = Some (PList cands) →
  find_best_match query (PList cands) = Returns (PDict c, score) →
  truthy (PDict c) = true →
  gw (log ++ [SearchText query 5])
     (GetPlaceDetails (default (PStr "") (c !! "id")) include_reviews) = Some details →
  truthy details = true →
  ¬ is_object details →
  lookup_business gw query include_reviews log =
    (Raises AttributeError,
     log ++ [SearchText query 5;
             GetPlaceDetails (default (PStr "") (c !! "id")) include_reviews]).
Proof.
  intros Hsearch Hplaces Hbest Hc Hdetails Hd Hobj.
  destruct (matched_candidate _ _ _ _ Hbest Hc) as [Hne [name Hname]].
  unfold lookup_business, search_text, get_place_details, request, lift.
  unfold mbind, io_bind. rewrite Hsearch. simpl default.
  rewrite (truthy_dict_lookup _ _ _ Hplaces). simpl. rewrite Hplaces. simpl.
  destruct cands as [|c0 cands]; [done|].
  rewrite Hbest, Hc, Hname. simpl. rewrite Hdetails.
  change (default PNone (Some ?v)) with v. rewrite Hd. simpl.
  rewrite <- app_assoc. by destruct details.
Qed.

Lemma details_not_object_raises_witness :
  let c := candidate "p1" "Acme Lighting" in
  lookup_business (snapshot [c] (PList [PStr "unexpected"])) "Acme Lighting, SLC" true [] =
    (Raises AttributeError,
     [SearchText "Acme Lighting, SLC" 5; GetPlaceDetails (PStr "p1") true]).
Proof.
  intros c.
  assert (find_best_match "Acme Lighting, SLC" (PList [c]) = Returns (c, 26 # 26)) as Hbest
    by (vm_compute; reflexivity).
  exact (details_not_object_raises (snapshot [c] (PList [PStr "unexpected"]))
           "Acme Lighting, SLC" true [] (search_body [c]) [c]
           {[ "id" := PStr "p1"; "displayName" := PDict {[ "text" := PStr "Acme Lighting" ]} ]}
           (26 # 26) (PList [PStr "unexpected"])
           eq_refl eq_refl Hbest eq_refl eq_refl eq_refl (λ H, H)).
Defined.

(** X15: A detail body whose ["reviews"] is [None], a [bool] or a number makes
    [lookup_business] raise [TypeError] when reviews are requested: the loop
    over the reviews is outside the [try]. *)
Theorem reviews_not_iterable_raises gw query log d cands c score details reviews :
  gw log (SearchText query 5) = Some (PDict d) →
  d !! "places" = Some (PList cands) →
  find_best_match query (PList cands) = Returns (PDict c, score) →
  truthy (PDict c) = true →
  gw (log ++ [SearchText query 5])
     (GetPlaceDetails (default (PStr "") (c !! "id")) true) = Some (PDict details) →
  object_or_absent (details !! "displayName") →
  details !! "reviews" = Some reviews →
  scalar reviews →
  lookup_business gw query true log =
    (Raises TypeError,
     log ++ [SearchText query 5; GetPlaceDetails (default (PStr "") (c !! "id")) true]).
Proof.
  intros Hsearch Hplaces Hbest Hc Hdetails Hname' Hreviews Hscalar.
  destruct (matched_candidate _ _ _ _ Hbest Hc) as [Hne [name Hname]].
  unfold lookup_business, search_text, get_place_details, request, lift.
  unfold mbind, io_bind. rewrite Hsearch. simpl default.
  rewrite (truthy_dict_lookup _ _ _ Hplaces). simpl. rewrite Hplaces. simpl.
  destruct cands as [|c0 cands]; [done|].
  rewrite Hbest, Hc, Hname. simpl. rewrite Hdetails.
  change (default PNone (Some ?v)) with v.
  rewrite (truthy_dict_lookup _ _ _ Hreviews). simpl.
  unfold display_text. simpl.
  assert (∃ x, get (default (PDict ∅) (details !! "displayName")) "text" name = Returns x)
    as [x ->].
  { destruct (details !! "displayName") as [[]|]; try done; by eexists. }
  simpl. rewrite Hreviews. simpl. rewrite <- app_assoc. by destruct reviews.
Qed.

Lemma reviews_not_iterable_raises_witness :
  let c := candidate "p1" "Acme Lighting" in
  let details := PDict {[ "rating" := PInt 4; "reviews" := PNone ]} in
  lookup_business (snapshot [c] details) "Acme Lighting, SLC" true [] =
    (Raises TypeError, [SearchText "Acme Lighting, SLC" 5; GetPlaceDetails (PStr "p1") true]) ∧
  ∃ info, (lookup_business (snapshot [c] details) "Acme Lighting, SLC" false []).1 =
            Returns (info, []).
Proof.
  intros c details.
  assert (find_best_match "Acme Lighting, SLC" (PList [c]) = Returns (c, 26 # 26)) as Hbest
    by (vm_compute; reflexivity).
  split.
  - exact (reviews_not_iterable_raises (snapshot [c] details)
             "Acme Lighting, SLC" [] (search_body [c]) [c]
             {[ "id" := PStr "p1"; "displayName" := PDict {[ "text" := PStr "Acme Lighting" ]} ]}
             (26 # 26) {[ "rating" := PInt 4; "reviews" := PNone ]} PNone
             eq_refl eq_refl Hbest eq_refl eq_refl I eq_refl I).
  - eexists. vm_compute. reflexivity.
Defined.

(** ** More on the reviews *)

(** X16: The reviews returned are the normalised payloads of the right shape,
    one for one and in their order; the other payloads leave no trace. *)
Theorem parse_reviews_keeps_shaped (raw : list pyval) :
  Forall2 (λ v r, ∃ d, v = PDict d ∧ r = normalized d)
    (filter review_shape raw) (parse_reviews raw).
Proof.
  induction raw as [|v raw IH]; [constructor|].
  rewrite filter_cons. simpl parse_reviews.
  pose proof (parse_review_shape v) as Hcase.
  destruct v as [| | | | | |d];
    try (destruct Hcase as [Hnot [e ->]]; by destruct (decide _)).
  destruct Hcase as [[Hs ->]|[Hnot [e ->]]]; destruct (decide _); try done.
  constructor; [|done]. eauto.
Qed.

Lemma find_best_match_shaped query cands :
  Forall candidate_shape cands →
  ∃ best score, find_best_match query (PList cands) = Returns (best, score) ∧
    (best = PNone ∨ ∃ c, best = PDict c).
Proof.
  intros Hall. destruct cands as [|c0 cands]; [exists PNone, 0%Q; by split; [|left]|].
  destruct (named_shape _ Hall) as [names Hnamed].
  destruct (find_best_match_spec query (c0 :: cands) names Hnamed ltac:(done))
    as (best & score & Hr & _).
  exists best, score. split; [done|].
  destruct (find_best_match_result _ _ _ _ Hr)
    as [[-> ->] | (_ & cands' & names' & i & [= <-] & _ & n & Hi & _)]; [by left|].
  right. apply list_elem_of_lookup_2 in Hi.
  rewrite Forall_forall in Hall. specialize (Hall _ Hi).
  destruct best; try done. eauto.
Qed.

(** X17: [lookup_business] returns, and does not raise, when the provider's
    answers have the expected shapes. *)
Theorem lookup_business_returns gw query include_reviews log :
  search_shape (gw log (SearchText query 5)) →
  (∀ place_id,
     details_shape include_reviews
       (gw (log ++ [SearchText query 5]) (GetPlaceDetails place_id include_reviews))) →
  ∃ info reviews,
    (lookup_business gw query include_reviews log).1 = Returns (info, reviews).
Proof.
  intros Hsearch Hdetails.
  unfold lookup_business, search_text, get_place_details, request, lift.
  unfold mbind, io_bind.
  destruct (gw log (SearchText query 5)) as [[| | | | | |d]|]; try done;
    [|by eexists _, _].
  change (default PNone (Some ?v)) with v.
  destruct (truthy (PDict d)) eqn:Hd; [|by eexists _, _].
  simpl in Hsearch |- *.
  destruct (d !! "places") as [[| | | | |cands|]|] eqn:Hplaces; try done;
    [|by eexists _, _].
  simpl. destruct cands as [|c0 cands]; [by eexists _, _|]. simpl "=?". cbv iota.
  destruct (find_best_match_shaped query _ Hsearch) as (best & score & Hbest & Hshape).
  rewrite Hbest. simpl.
  destruct Hshape as [->|[c ->]]; [by eexists _, _|].
  destruct (truthy (PDict c)) eqn:Hc; [|by eexists _, _].
  destruct (matched_candidate _ _ _ _ Hbest Hc) as [_ [name Hname]].
  rewrite Hname. simpl.
  specialize (Hdetails (default (PStr "") (c !! "id"))).
  destruct (gw _ (GetPlaceDetails _ _)) as [[| | | | | |details]|]; try done;
    [|by eexists _, _].
  change (default PNone (Some ?v)) with v.
  destruct (truthy (PDict details)); [|by eexists _, _].
  destruct Hdetails as [Hdn Hrv]. simpl. unfold display_text. simpl.
  assert (∃ x, get (default (PDict ∅) (details !! "displayName")) "text" name = Returns x)
    as [x ->].
  { destruct (details !! "displayName") as [[]|]; try done; by eexists. }
  simpl. destruct include_reviews; [|by eexists _, _].
  specialize (Hrv eq_refl).
  destruct (details !! "reviews") as [[]|]; try done; by eexists _, _.
Qed.

Lemma lookup_business_returns_witness :
  let c := candidate "p1" "Acme Lighting" in
  let details := PDict {[ "rating" := PInt 4; "reviews" := PList [PStr "spam"] ]} in
  ∃ info reviews,
    (lookup_business (snapshot [c] details) "Acme Lighting, SLC" true []).1 =
      Returns (info, reviews).
Proof.
  intros c details.
  apply (lookup_business_returns (snapshot [c] details) "Acme Lighting, SLC" true []).
  - simpl. repeat constructor.
  - intros place_id. simpl. split; [exact I|]. intros _. exact I.
Defined.

(** ** The batch *)

Lemma lookup_business_query gw query include_reviews log info reviews log' :
  lookup_business gw query include_reviews log = (Returns (info, reviews), log') →
  BusinessInfo.query info = query.
Proof.
  intros Hrun. unfold lookup_business in Hrun.
  apply bind_returns in Hrun as (search_response & ? & _ & Hrun).
  apply bind_returns in Hrun as (no_results & ? & _ & Hrun).
  destruct no_results.
  { by apply lift_returns in Hrun as [[= <- <-] _]. }
  apply bind_returns in Hrun as (all_places & ? & _ & Hrun).
  apply bind_returns in Hrun as ([best score] & ? & _ & Hrun).
  destruct (negb (truthy best)).
  { by apply lift_returns in Hrun as [[= <- <-] _]. }
  do 3 apply bind_returns in Hrun as (? & ? & _ & Hrun).
  apply bind_returns in Hrun as (details_response & ? & _ & Hrun).
  destruct (negb (truthy details_response)).
  { by apply lift_returns in Hrun as [[= <- <-] _]. }
  do 7 apply bind_returns in Hrun as (? & ? & _ & Hrun).
  by apply lift_returns in Hrun as [[= <- <-] _].
Qed.

Lemma lookup_business_log_length gw query include_reviews log :
  let log' := (lookup_business gw query include_reviews log).2 in
  length log + 1 ≤ length log' ≤ length log + 2.
Proof.
  unfold lookup_business, search_text, get_place_details, request, lift.
  unfold mbind, io_bind. simpl.
  repeat (match goal with
          | |- context [match ?x with _ => _ end] => destruct x
          end; simpl);
    rewrite ?length_app; simpl; lia.
Qed.

Lemma process_queries_cons gw include_reviews query queries businesses all_reviews :
  process_queries gw include_reviews (query :: queries) businesses all_reviews =
    ('(business_info, reviews) ← lookup_business gw query include_reviews;
     all_reviews' ← lift (
       match reviews with
       | [] => Returns all_reviews
       | _ =>
           if hashable (BusinessInfo.name business_info)
           then Returns (all_reviews ++ [(BusinessInfo.name business_info, reviews)])
           else Raises TypeError
       end);
     process_queries gw include_reviews queries (businesses ++ [business_info]) all_reviews').
Proof. reflexivity. Qed.

(** X18: When the loop of [main] over the queries completes, it has appended
    one record per query, in the order of the queries and each carrying its
    query; it has stored at most one review list per query, each non-empty
    and under a hashable name; and it has made at least one and at most two
    requests per query. *)
Theorem batch_records gw include_reviews queries businesses0 all_reviews0 log
    businesses all_reviews log' :
  process_queries gw include_reviews queries businesses0 all_reviews0 log =
    (Returns (businesses, all_reviews), log') →
  (∃ found, businesses = businesses0 ++ found ∧
     Forall2 (λ query info, BusinessInfo.query info = query) queries found) ∧
  (∃ entries, all_reviews = all_reviews0 ++ entries ∧
     length entries ≤ length queries ∧ Forall stored entries) ∧
  length log + length queries ≤ length log' ≤ length log + 2 * length queries.
Proof.
  revert businesses0 all_reviews0 log.
  induction queries as [|query queries IH]; intros businesses0 all_reviews0 log Hrun.
  - apply lift_returns in Hrun as [[= <- <-] ->].
    split; [exists []; by rewrite app_nil_r|].
    split; [exists []; by rewrite app_nil_r|]. simpl. lia.
  - rewrite process_queries_cons in Hrun.
    apply bind_returns in Hrun as ([info reviews] & log1 & Hlookup & Hrun).
    apply bind_returns in Hrun as (all_reviews1 & ? & Hstore & Hrun).
    apply lift_returns in Hstore as [Hstore ->].
    apply IH in Hrun as ((found & -> & Hfound) & (entries & -> & Hlen & Hentries) & Hlog).
    pose proof (lookup_business_log_length gw query include_reviews log) as Hlog1.
    rewrite Hlookup in Hlog1. simpl in Hlog1.
    split; [|split; [|simpl; lia]].
    + exists (info :: found). rewrite <- app_assoc. split; [done|].
      constructor; [|done]. by eapply lookup_business_query.
    + destruct reviews as [|review reviews].
      * injection Hstore as <-. exists entries. split; [done|]. split; [simpl; lia|done].
      * destruct (hashable (BusinessInfo.name info)) eqn:Hkey; [|done].
        injection Hstore as <-.
        exists ((BusinessInfo.name info, review :: reviews) :: entries).
        rewrite <- app_assoc. split; [done|]. split; [simpl; lia|].
        by constructor.
Qed.

Lemma batch_records_witness :
  let gw :=
    snapshot [candidate "p1" "Acme Lighting"]
      (PDict {[ "rating" := PInt 4;
                "reviews" := PList [PDict {[ "rating" := PInt 5 ]}] ]}) in
  ∃ found entries,
    Forall2 (λ query info, BusinessInfo.query info = query)
      ["Acme Lighting, SLC"; "zzz"] found ∧
    length entries ≤ 2 ∧ Forall stored entries.
Proof.
  intros gw.
  edestruct (batch_records gw true ["Acme Lighting, SLC"; "zzz"] [] [] [])
    as ((found & _ & Hfound) & (entries & _ & Hlen & Hentries) & _).
  - vm_compute. reflexivity.
  - by exists found, entries.
Defined.

(** X19: With a provider whose answers do not depend on earlier requests,
    the record that the loop of [main] appends for a query is the record
    that [lookup_business] returns for that query on its own: neither the
    other queries nor their order matter. *)
Theorem batch_of_stable_provider gw include_reviews queries businesses0 all_reviews0 log
    businesses all_reviews log' :
  stable gw →
  process_queries gw include_reviews queries businesses0 all_reviews0 log =
    (Returns (businesses, all_reviews), log') →
  ∃ found, businesses = businesses0 ++ found ∧
    Forall2 (λ query info,
               ∃ reviews, (lookup_business gw query include_reviews []).1 =
                            Returns (info, reviews))
      queries found.
Proof.
  intros Hgw. revert businesses0 all_reviews0 log.
  induction queries as [|query queries IH]; intros businesses0 all_reviews0 log Hrun.
  - apply lift_returns in Hrun as [[= <- <-] ->]. exists []. by rewrite app_nil_r.
  - rewrite process_queries_cons in Hrun.
    apply bind_returns in Hrun as ([info reviews] & log1 & Hlookup & Hrun).
    apply bind_returns in Hrun as (all_reviews1 & ? & _ & Hrun).
    apply IH in Hrun as (found & -> & Hfound).
    exists (info :: found). rewrite <- app_assoc. split; [done|].
    constructor; [|done]. exists reviews.
    rewrite (lookup_business_independent gw query include_reviews Hgw [] log).
    by rewrite Hlookup.
Qed.

Lemma batch_of_stable_provider_witness :
  let gw := snapshot [candidate "p1" "Acme Lighting"] (PDict {[ "rating" := PInt 4 ]}) in
  ∃ found,
    Forall2 (λ query info,
               ∃ reviews, (lookup_business gw query true []).1 = Returns (info, reviews))
      ["Acme Lighting, SLC"; "zzz"] found.
Proof.
  intros gw.
  edestruct (batch_of_stable_provider gw true ["Acme Lighting, SLC"; "zzz"] [] [] [])
    as (found & _ & Hfound).
  - done.
  - vm_compute. reflexivity.
  - by exists found.
Defined.
